(** * Finite-difference derivatives (fd::finite_gradient and friends)

    A shallow embedding of [src/finitediff.cpp].  The C++ code works on
    [double]; every function below is written once, against the interface
    [Arith] of the scalar operations the code uses, and is then run
      - on IEEE binary64 numbers ([Double]: Rocq's primitive floats, the
        arithmetic the compiled code really performs), and
      - on the real numbers ([Exact]: the arithmetic the comments and the
        finite-difference formulas are written in).
    Statements that only follow the control flow hold for every [Arith];
    statements that need algebra are proved for the reals, and what the
    comparators do with signs and NaN is proved for doubles from the
    IEEE 754 specification of the primitive operations. *)

From Stdlib Require Import ZArith List Lia Reals Lra String.
From Stdlib Require Import PrimFloat Uint63.
From Stdlib Require SpecFloat FloatOps FloatAxioms.
From stdpp Require Import base list.

Local Open Scope nat_scope.

(** ** Scalars *)

(** The operations of [double] the source uses: integer literals, the
    four arithmetic operators, [abs] (the overload for [double], the
    absolute value) and the comparison [<] (from which [>] and [std::max]
    are obtained).  [leb] is [<=]; the code never calls it, the contract
    of the comparators is phrased with it. *)
Class Arith (T : Type) := {
  of_Z : Z -> T;
  add : T -> T -> T;
  sub : T -> T -> T;
  mul : T -> T -> T;
  div : T -> T -> T;
  abs : T -> T;
  ltb : T -> T -> bool;
  leb : T -> T -> bool
}.

#[global] Instance arith_inhabited `{Arith T} : Inhabited T := populate (of_Z 0).

(** [a > b] *)
Definition gtb `{Arith T} (a b : T) : bool := ltb b a.

(** [std::max(a, b)], which is [(a < b) ? b : a]. *)
Definition fmax `{Arith T} (a b : T) : T := if ltb a b then b else a.

(** ** Stencil tables *)

(** Modelled from the spec: the enumeration [AccuracyOrder], which
    finitediff.hpp declares and finitediff.cpp only uses; four orders
    (second, fourth, sixth, eighth), whose values the code takes as the
    table indices 0..3. *)
Inductive AccuracyOrder := Order2 | Order4 | Order6 | Order8.

Definition acc_index (a : AccuracyOrder) : nat :=
  match a with Order2 => 0 | Order4 => 1 | Order6 => 2 | Order8 => 3 end.

(** The external coefficients, c1, in c1 * f(x + c2). *)
Definition coeff : list (list Z) :=
  [ [1; -1]; [1; -8; 8; -1]; [-1; 9; -45; 45; -9; 1];
    [3; -32; 168; -672; 672; -168; 32; -3] ]%Z.

(** The internal coefficients, c2, in c1 * f(x + c2). *)
Definition coeff2 : list (list Z) :=
  [ [1; -1]; [-2; -1; 1; 2]; [-3; -2; -1; 1; 2; 3];
    [-4; -3; -2; -1; 1; 2; 3; 4] ]%Z.

(** The denominators of the finite difference. *)
Definition dd : list Z := [2; 12; 60; 840]%Z.

Definition innerSteps (a : AccuracyOrder) : nat := 2 * (acc_index a + 1).

(** ** The differencing engine *)

Section Differencing.
Context {T : Type} `{Arith T}.

(** What freshly allocated Eigen storage holds: anything. *)
Variable uninit : nat -> T.

Local Abbreviation vec := (list T).

(** [coeff[accuracy][s]], [coeff2[accuracy][s]] and [dd[accuracy] * eps].
    The tables are indexed without a check in the source; every index
    the loops produce is inside them, see [tables_shape]. *)
Definition c1 (a : AccuracyOrder) (s : nat) : T :=
  of_Z ((coeff !!! acc_index a) !!! s).
Definition c2 (a : AccuracyOrder) (s : nat) : T :=
  of_Z ((coeff2 !!! acc_index a) !!! s).
Definition ddVal (a : AccuracyOrder) (eps : T) : T :=
  mul (of_Z (dd !!! acc_index a)) eps.

(** [v.resize(n)]: a no-op when the size is already [n], otherwise new
    storage whose content is not initialised. *)
Definition vec_resize (n : nat) (v : vec) : vec :=
  if decide (length v = n) then v else uninit <$> seq 0 n.

(** *** finite_gradient *)

(** The objects the function touches: the caller's [x] (a const
    reference), the working copy [xx], the output [grad], and the
    arguments [f] has been called with so far, oldest first.  This is the
    call in which [x] and [grad] are two objects; the call on references,
    which may both name one object, is [finite_gradient_call] below, and
    [finite_gradient_call_separate] shows that the two agree when [x] and
    [grad] differ.

    [d] runs below [x.rows()], which is the size of [xx] and, after the
    [resize], of [grad] (see [gradient_inv]): every [v[d]] below is inside
    its vector, where [v !!! d] reads it and [<[d := a]> v] writes it. *)
Record grad_state := GradState {
  gs_x : vec;
  gs_xx : vec;
  gs_grad : vec;
  gs_evals : list vec
}.

(** Body of the loop over [s]. *)
Definition gradient_inner (f : vec -> T) (a : AccuracyOrder) (eps : T)
    (d : nat) (st : grad_state) (s : nat) : grad_state :=
  (* xx[d] += coeff2[accuracy][s] * eps; *)
  let xx1 := <[d := add (gs_xx st !!! d) (mul (c2 a s) eps)]> (gs_xx st) in
  (* grad[d] += coeff[accuracy][s] * f(xx); *)
  let fx := f xx1 in
  let grad1 := <[d := add (gs_grad st !!! d) (mul (c1 a s) fx)]> (gs_grad st) in
  (* xx[d] = x[d]; *)
  {| gs_x := gs_x st;
     gs_xx := <[d := gs_x st !!! d]> xx1;
     gs_grad := grad1;
     gs_evals := gs_evals st ++ [xx1] |}.

(** Body of the loop over [d]. *)
Definition gradient_outer (f : vec -> T) (a : AccuracyOrder) (eps : T)
    (st : grad_state) (d : nat) : grad_state :=
  (* grad[d] = 0; *)
  let st0 := {| gs_x := gs_x st; gs_xx := gs_xx st;
                gs_grad := <[d := of_Z 0]> (gs_grad st);
                gs_evals := gs_evals st |} in
  let st1 := fold_left (gradient_inner f a eps d) (seq 0 (innerSteps a)) st0 in
  (* grad[d] /= ddVal; *)
  {| gs_x := gs_x st1; gs_xx := gs_xx st1;
     gs_grad := <[d := div (gs_grad st1 !!! d) (ddVal a eps)]> (gs_grad st1);
     gs_evals := gs_evals st1 |}.

Definition finite_gradient (x : vec) (f : vec -> T) (grad : vec)
    (a : AccuracyOrder) (eps : T) : grad_state :=
  fold_left (gradient_outer f a eps) (seq 0 (length x))
    {| gs_x := x; gs_xx := x;
       gs_grad := vec_resize (length x) grad;
       gs_evals := [] |}.

(** *** The stencil formula, as the documentation words it *)

(** [x] with coordinate [d] replaced by [x[d] + h]. *)
Definition perturbed (x : vec) (d : nat) (h : T) : vec :=
  <[d := add (x !!! d) h]> x.

(** The [s]-th evaluation point of dimension [d]. *)
Definition stencil_point (x : vec) (a : AccuracyOrder) (eps : T)
    (d s : nat) : vec :=
  perturbed x d (mul (c2 a s) eps).

(** [0 + c1[0] * g 0 + c1[1] * g 1 + ...], summed in stencil order. *)
Definition stencil_sum_from (a : AccuracyOrder) (g : nat -> T)
    (l : list nat) (acc : T) : T :=
  fold_left (fun acc s => add acc (mul (c1 a s) (g s))) l acc.

Definition stencil_sum (a : AccuracyOrder) (g : nat -> T) : T :=
  stencil_sum_from a g (seq 0 (innerSteps a)) (of_Z 0).

Definition gradient_entry (x : vec) (f : vec -> T) (a : AccuracyOrder)
    (eps : T) (d : nat) : T :=
  div (stencil_sum a (fun s => f (stencil_point x a eps d s))) (ddVal a eps).

(** All stencil points of dimension [d], in evaluation order. *)
Definition stencil_points (x : vec) (a : AccuracyOrder) (eps : T)
    (d : nat) : list vec :=
  stencil_point x a eps d <$> seq 0 (innerSteps a).

(** [p] and [x] agree everywhere except possibly at one coordinate. *)
Definition differs_in_at_most_one (x p : vec) : Prop :=
  length p = length x ∧ ∃ d, ∀ k, k ≠ d → p !! k = x !! k.

(** State of the loop over [d] after [k] dimensions. *)
Definition gradient_inv (x : vec) (f : vec -> T) (a : AccuracyOrder)
    (eps : T) (k : nat) (st : grad_state) : Prop :=
  gs_x st = x ∧ gs_xx st = x ∧ length (gs_grad st) = length x ∧
  take k (gs_grad st) = gradient_entry x f a eps <$> seq 0 k ∧
  gs_evals st = concat (stencil_points x a eps <$> seq 0 k).
End Differencing.

(** *** finite_gradient on the caller's objects *)

(** [x] is a [const Eigen::VectorXd&] and [grad] an [Eigen::VectorXd&]:
    nothing keeps a caller from passing one vector for both, as in
    [finite_gradient(v, f, v, accuracy, eps)].  The caller's vectors are a
    store indexed by object; [x] and [grad] name objects of it, two or
    the same one.  ([finite_jacobian] and [finite_hessian] write to an
    [Eigen::MatrixXd&], which no [VectorXd] can be, and the comparators
    write nothing.) *)
Definition obj := nat.
Definition store (T : Type) := obj → list T.

Section GradientCall.
Context {T : Type} `{Arith T}.
Variable uninit : nat -> T.
Local Abbreviation vec := (list T).

(** Assigns [v] to the object [o]. *)
Definition store_put (mem : store T) (o : obj) (v : vec) : store T :=
  fun o' => if decide (o' = o) then v else mem o'.

(** The caller's vectors, the local [xx], and the arguments [f] has been
    called with so far. *)
Record grad_call := GradCall {
  gc_store : store T;
  gc_xx : vec;
  gc_evals : list vec
}.

(** Body of the loop over [s]. *)
Definition gradient_call_inner (x grad : obj) (f : vec -> T)
    (a : AccuracyOrder) (eps : T) (d : nat) (st : grad_call) (s : nat)
    : grad_call :=
  (* xx[d] += coeff2[accuracy][s] * eps; *)
  let xx1 := <[d := add (gc_xx st !!! d) (mul (c2 a s) eps)]> (gc_xx st) in
  (* grad[d] += coeff[accuracy][s] * f(xx); *)
  let fx := f xx1 in
  let mem1 :=
    store_put (gc_store st) grad
      (<[d := add (gc_store st grad !!! d) (mul (c1 a s) fx)]>
         (gc_store st grad)) in
  (* xx[d] = x[d]; *)
  {| gc_store := mem1;
     gc_xx := <[d := mem1 x !!! d]> xx1;
     gc_evals := gc_evals st ++ [xx1] |}.

(** Body of the loop over [d]. *)
Definition gradient_call_outer (x grad : obj) (f : vec -> T)
    (a : AccuracyOrder) (eps : T) (st : grad_call) (d : nat) : grad_call :=
  (* grad[d] = 0; *)
  let st0 :=
    {| gc_store := store_put (gc_store st) grad
                     (<[d := of_Z 0]> (gc_store st grad));
       gc_xx := gc_xx st;
       gc_evals := gc_evals st |} in
  let st1 :=
    fold_left (gradient_call_inner x grad f a eps d) (seq 0 (innerSteps a))
      st0 in
  (* grad[d] /= ddVal; *)
  {| gc_store := store_put (gc_store st1) grad
                   (<[d := div (gc_store st1 grad !!! d) (ddVal a eps)]>
                      (gc_store st1 grad));
     gc_xx := gc_xx st1;
     gc_evals := gc_evals st1 |}.

(** The call [finite_gradient(x, f, grad, accuracy, eps)] on the store
    [mem].  No statement changes a size after the [resize], so [x.rows()]
    is read once for the loop over [d]. *)
Definition finite_gradient_call (mem : store T) (x grad : obj)
    (f : vec -> T) (a : AccuracyOrder) (eps : T) : grad_call :=
  (* grad.resize(x.rows()); *)
  let mem0 := store_put mem grad (vec_resize uninit (length (mem x)) (mem grad)) in
  (* Eigen::VectorXd xx = x; *)
  fold_left (gradient_call_outer x grad f a eps) (seq 0 (length (mem0 x)))
    {| gc_store := mem0; gc_xx := mem0 x; gc_evals := [] |}.

(** The functional model and the call agree: same output, same [xx], same
    arguments of [f], and [x] left as it was. *)
Definition same_run (mem : store T) (x grad : obj) (st : grad_state)
    (c : grad_call) : Prop :=
  gc_store c x = gs_x st ∧ gc_store c grad = gs_grad st ∧
  (∀ o, o ≠ grad → gc_store c o = mem o) ∧
  gc_xx c = gs_xx st ∧ gc_evals c = gs_evals st.
End GradientCall.

(** ** Failing calls *)

(** How a call ends.  [Aborted]: an [assert] (or Eigen's own
    [eigen_assert]) failed and the process was aborted.  [Undefined]: a
    container was read outside its storage with the checks compiled out. *)
Inductive outcome (A : Type) : Type :=
  | Ok (a : A)
  | Aborted
  | Undefined.
Arguments Ok {A} a.
Arguments Aborted {A}.
Arguments Undefined {A}.

#[global] Instance outcome_bind : MBind outcome := λ A B k m,
  match m with
  | Ok a => k a
  | Aborted => Aborted
  | Undefined => Undefined
  end.

(** A [for] loop whose body may fail: the first failure ends the call. *)
Fixpoint for_each {A B} (l : list B) (body : A -> B -> outcome A) (a : A)
    : outcome A :=
  match l with
  | [] => Ok a
  | b :: l' => a' ← body a b; for_each l' body a'
  end.

(** [assert(b)]: compiled out when [NDEBUG] is defined. *)
Definition cassert (ndebug : bool) (b : bool) : outcome unit :=
  if ndebug then Ok tt else if b then Ok tt else Aborted.

(** ** Dense matrices *)

Section Matrices.
Context {T : Type} `{Arith T}.
Variable uninit : nat -> T.
Local Abbreviation vec := (list T).

(** [Eigen::MatrixXd]: column-major storage, coefficient [(r, c)] at
    position [r + c * rows]. *)
Record Matrix := Mat {
  m_rows : nat;
  m_cols : nat;
  m_data : list T
}.

Definition mat_wf (M : Matrix) : Prop :=
  length (m_data M) = m_rows M * m_cols M.

Definition mat_idx (M : Matrix) (r c : nat) : nat := r + c * m_rows M.

(** [M(r, c)] for an index inside the matrix. *)
Definition mat_get (M : Matrix) (r c : nat) : T :=
  m_data M !!! mat_idx M r c.

(** [M(r, c) = v] for an index inside the matrix. *)
Definition mat_set (M : Matrix) (r c : nat) (v : T) : Matrix :=
  {| m_rows := m_rows M; m_cols := m_cols M;
     m_data := <[mat_idx M r c := v]> (m_data M) |}.

(** [M.resize(r, c)]: keeps the storage when the number of coefficients
    does not change, otherwise allocates uninitialised storage. *)
Definition mat_resize (r c : nat) (M : Matrix) : Matrix :=
  {| m_rows := r; m_cols := c;
     m_data := if decide (length (m_data M) = r * c) then m_data M
               else uninit <$> seq 0 (r * c) |}.

(** A coefficient-wise update of column [d]: row [r] becomes
    [g r (M(r, d))]. *)
Definition col_map (g : nat -> T -> T) (d : nat) (M : Matrix) : Matrix :=
  {| m_rows := m_rows M; m_cols := m_cols M;
     m_data :=
       fold_left (fun dat r =>
                    <[r + d * m_rows M := g r (dat !!! (r + d * m_rows M))]> dat)
                 (seq 0 (m_rows M)) (m_data M) |}.

(** [M.col(d) += c * v].  Eigen asserts that the sizes agree; without
    the assertion the loop runs over the column and reads [v] as far as
    the column goes. *)
Definition col_add_scaled (ndebug : bool) (c : T) (v : vec) (d : nat)
    (M : Matrix) : outcome Matrix :=
  let M' := col_map (fun r old => add old (mul c (v !!! r))) d M in
  if ndebug
  then if decide (m_rows M ≤ length v) then Ok M' else Undefined
  else if decide (length v = m_rows M) then Ok M' else Aborted.

(** [v[d]] read through Eigen's checked accessor. *)
Definition vec_at (ndebug : bool) (v : vec) (d : nat) : outcome T :=
  match v !! d with
  | Some a => Ok a
  | None => if ndebug then Undefined else Aborted
  end.

(** [M(r, c)] read through Eigen's checked accessor. *)
Definition mat_at (ndebug : bool) (M : Matrix) (r c : nat) : outcome T :=
  if negb ndebug && negb ((r <? m_rows M) && (c <? m_cols M))
  then Aborted
  else match m_data M !! mat_idx M r c with
       | Some a => Ok a
       | None => Undefined
       end.
End Matrices.

Arguments Matrix T : clear implicits.

(** ** finite_jacobian *)

Section Jacobian.
Context {T : Type} `{Arith T}.
Variable uninit : nat -> T.
Variable ndebug : bool.
Local Abbreviation vec := (list T).

Record jac_state := JacState {
  js_x : vec;
  js_xx : vec;
  js_jac : Matrix T;
  js_evals : list vec
}.

Definition jacobian_inner (f : vec -> vec) (a : AccuracyOrder) (eps : T)
    (d : nat) (st : jac_state) (s : nat) : outcome jac_state :=
  (* xx[d] += coeff2[accuracy][s] * eps; *)
  let xx1 := <[d := add (js_xx st !!! d) (mul (c2 a s) eps)]> (js_xx st) in
  (* jac.col(d) += coeff[accuracy][s] * f(xx); *)
  let fx := f xx1 in
  jac1 ← col_add_scaled ndebug (c1 a s) fx d (js_jac st);
  (* xx[d] = x[d]; *)
  Ok {| js_x := js_x st;
        js_xx := <[d := js_x st !!! d]> xx1;
        js_jac := jac1;
        js_evals := js_evals st ++ [xx1] |}.

Definition jacobian_outer (f : vec -> vec) (a : AccuracyOrder) (eps : T)
    (st : jac_state) (d : nat) : outcome jac_state :=
  (* jac.col(d).setZero(); *)
  let st0 := {| js_x := js_x st; js_xx := js_xx st;
                js_jac := col_map (fun _ _ => of_Z 0) d (js_jac st);
                js_evals := js_evals st |} in
  st1 ← for_each (seq 0 (innerSteps a)) (jacobian_inner f a eps d) st0;
  (* jac.col(d) /= ddVal; *)
  Ok {| js_x := js_x st1; js_xx := js_xx st1;
        js_jac := col_map (fun _ old => div old (ddVal a eps)) d (js_jac st1);
        js_evals := js_evals st1 |}.

Definition finite_jacobian (x : vec) (f : vec -> vec) (jac : Matrix T)
    (a : AccuracyOrder) (eps : T) : outcome jac_state :=
  (* jac.resize(f(x).rows(), x.rows()); *)
  let fx := f x in
  for_each (seq 0 (length x)) (jacobian_outer f a eps)
    {| js_x := x; js_xx := x;
       js_jac := mat_resize uninit (length fx) (length x) jac;
       js_evals := [x] |}.

(** Row [r] of column [d], as the documentation words it: the gradient
    formula on component [r] of [f]. *)
Definition jacobian_entry (x : vec) (f : vec -> vec) (a : AccuracyOrder)
    (eps : T) (r d : nat) : T :=
  gradient_entry x (fun p => f p !!! r) a eps d.

(** State of the loop over [s] for column [d] after [k] stencil
    positions, the loop having started with the matrix [jac0] and the
    evaluations [ev0]. *)
Definition jac_inner_inv (x : vec) (f : vec -> vec) (a : AccuracyOrder)
    (eps : T) (d : nat) (jac0 : Matrix T) (ev0 : list vec) (k : nat)
    (st : jac_state) : Prop :=
  js_x st = x ∧ js_xx st = x ∧
  m_rows (js_jac st) = m_rows jac0 ∧ m_cols (js_jac st) = m_cols jac0 ∧
  mat_wf (js_jac st) ∧
  (∀ r c, r < m_rows jac0 → c < m_cols jac0 →
     mat_get (js_jac st) r c =
     if decide (c = d)
     then stencil_sum_from a (fun s => f (stencil_point x a eps d s) !!! r)
            (seq 0 k) (of_Z 0)
     else mat_get jac0 r c) ∧
  js_evals st = ev0 ++ (stencil_point x a eps d <$> seq 0 k).

(** State of the loop over [d] after [k] columns. *)
Definition jac_outer_inv (x : vec) (f : vec -> vec) (a : AccuracyOrder)
    (eps : T) (k : nat) (st : jac_state) : Prop :=
  js_x st = x ∧ js_xx st = x ∧
  m_rows (js_jac st) = length (f x) ∧ m_cols (js_jac st) = length x ∧
  mat_wf (js_jac st) ∧
  (∀ r c, r < length (f x) → c < k →
     mat_get (js_jac st) r c = jacobian_entry x f a eps r c) ∧
  js_evals st = x :: concat (stencil_points x a eps <$> seq 0 k).
End Jacobian.

(** ** finite_hessian *)

Section Hessian.
Context {T : Type} `{Arith T}.
Variable uninit : nat -> T.
Local Abbreviation vec := (list T).

Record hess_state := HessState {
  hs_x : vec;
  hs_xx : vec;
  hs_hess : Matrix T;
  hs_evals : list vec
}.

(** Body of the loop over [j]. *)
Definition hessian_inner (f : vec -> T) (eps : T) (i : nat)
    (st : hess_state) (j : nat) : hess_state :=
  let xx0 := hs_xx st in
  (* double f4 = f(xx); *)
  let f4 := f xx0 in
  (* xx[i] += eps; xx[j] += eps; double f1 = f(xx); *)
  let xx1 := <[i := add (xx0 !!! i) eps]> xx0 in
  let xx2 := <[j := add (xx1 !!! j) eps]> xx1 in
  let f1 := f xx2 in
  (* xx[j] -= eps; double f2 = f(xx); *)
  let xx3 := <[j := sub (xx2 !!! j) eps]> xx2 in
  let f2 := f xx3 in
  (* xx[j] += eps; xx[i] -= eps; double f3 = f(xx); *)
  let xx4 := <[j := add (xx3 !!! j) eps]> xx3 in
  let xx5 := <[i := sub (xx4 !!! i) eps]> xx4 in
  let f3 := f xx5 in
  (* hess(i, j) = (f1 - f2 - f3 + f4) / (eps * eps); *)
  let h := div (add (sub (sub f1 f2) f3) f4) (mul eps eps) in
  (* xx[i] = x[i]; xx[j] = x[j]; *)
  let xx6 := <[i := hs_x st !!! i]> xx5 in
  let xx7 := <[j := hs_x st !!! j]> xx6 in
  {| hs_x := hs_x st;
     hs_xx := xx7;
     hs_hess := mat_set (hs_hess st) i j h;
     hs_evals := hs_evals st ++ [xx0; xx2; xx3; xx5] |}.

Definition hessian_outer (f : vec -> T) (eps : T)
    (st : hess_state) (i : nat) : hess_state :=
  fold_left (hessian_inner f eps i) (seq 0 (length (hs_x st))) st.

Definition finite_hessian (x : vec) (f : vec -> T) (hess : Matrix T)
    (eps : T) : hess_state :=
  fold_left (hessian_outer f eps) (seq 0 (length x))
    {| hs_x := x; hs_xx := x;
       hs_hess := mat_resize uninit (length x) (length x) hess;
       hs_evals := [] |}.

(** The three perturbed points the code builds for the pair [(i, j)],
    written with the very operations the code applies to [xx]. *)
Definition hess_point1 (x : vec) (eps : T) (i j : nat) : vec :=
  let xx1 := <[i := add (x !!! i) eps]> x in
  <[j := add (xx1 !!! j) eps]> xx1.
Definition hess_point2 (x : vec) (eps : T) (i j : nat) : vec :=
  let xx2 := hess_point1 x eps i j in
  <[j := sub (xx2 !!! j) eps]> xx2.
Definition hess_point3 (x : vec) (eps : T) (i j : nat) : vec :=
  let xx3 := hess_point2 x eps i j in
  let xx4 := <[j := add (xx3 !!! j) eps]> xx3 in
  <[i := sub (xx4 !!! i) eps]> xx4.

(** What [hess(i, j)] receives. *)
Definition hessian_entry_code (x : vec) (f : vec -> T) (eps : T)
    (i j : nat) : T :=
  div (add (sub (sub (f (hess_point1 x eps i j)) (f (hess_point2 x eps i j)))
                (f (hess_point3 x eps i j)))
           (f x))
      (mul eps eps).

(** The four arguments of [f] for the pair [(i, j)], as the code builds
    them, in evaluation order. *)
Definition hess_points_code (x : vec) (eps : T) (i j : nat) : list vec :=
  [x; hess_point1 x eps i j; hess_point2 x eps i j; hess_point3 x eps i j].

(** The mixed second difference, as the documentation words it:
    [(f(x + eps ei + eps ej) - f(x + eps ei) - f(x + eps ej) + f(x)) / eps^2]. *)
Definition mixed_difference (x : vec) (f : vec -> T) (eps : T)
    (i j : nat) : T :=
  div (add (sub (sub (f (perturbed (perturbed x i eps) j eps))
                     (f (perturbed x i eps)))
                (f (perturbed x j eps)))
           (f x))
      (mul eps eps).

(** The four arguments of [f] for the pair [(i, j)] in the documented
    order: [x], both perturbed, only [i], only [j]. *)
Definition mixed_difference_points (x : vec) (eps : T) (i j : nat)
    : list vec :=
  [x; perturbed (perturbed x i eps) j eps; perturbed x i eps;
   perturbed x j eps].

(** State of the loops when the pair [(i, j)] comes next. *)
Definition hessian_inv (x : vec) (f : vec -> T) (eps : T) (i j : nat)
    (st : hess_state) : Prop :=
  let n := length x in
  hs_x st = x ∧ hs_xx st = x ∧
  m_rows (hs_hess st) = n ∧ m_cols (hs_hess st) = n ∧ mat_wf (hs_hess st) ∧
  (∀ i' j', i' < n → j' < n → i' < i ∨ (i' = i ∧ j' < j) →
     mat_get (hs_hess st) i' j' = hessian_entry_code x f eps i' j') ∧
  hs_evals st =
    concat ((fun i' => concat (hess_points_code x eps i' <$> seq 0 n))
              <$> seq 0 i)
    ++ concat (hess_points_code x eps i <$> seq 0 j).
End Hessian.

(** ** The comparators *)

Section Comparator.
Context {T : Type} `{Arith T}.

(** [NDEBUG]: whether [assert] and Eigen's index checks are compiled out. *)
Variable ndebug : bool.
Local Abbreviation vec := (list T).

(** One [spdlog::debug] record: label, tolerance, row (and column for
    matrices), both values, [|x-y|], [|x-y|/|x|] and [|x-y|/|y|]. *)
Record diag := Diag {
  dg_msg : string;
  dg_eps : T;
  dg_r : nat;
  dg_c : option nat;
  dg_x : T;
  dg_y : T;
  dg_abs_diff : T;
  dg_rel_x : T;
  dg_rel_y : T
}.

(** [std::max(std::max(abs(x), abs(y)), double(1.0))] *)
Definition scale_of (xv yv : T) : T :=
  fmax (fmax (abs xv) (abs yv)) (of_Z 1).

(** The test of the [if]: [abs_diff > test_eps * scale]. *)
Definition too_far (test_eps xv yv : T) : bool :=
  gtb (abs (sub xv yv)) (mul test_eps (scale_of xv yv)).

(** Body of the innermost loop of both comparators.  The state is the
    flag [same] and the records sent to the log so far. *)
Definition check_pair (test_eps : T) (msg : string) (r : nat)
    (c : option nat) (xv yv : T) (st : bool * list diag)
    : bool * list diag :=
  let scale := scale_of xv yv in
  let abs_diff := abs (sub xv yv) in
  if gtb abs_diff (mul test_eps scale)
  then (false,
        st.2 ++ [ {| dg_msg := msg; dg_eps := test_eps; dg_r := r; dg_c := c;
                     dg_x := xv; dg_y := yv; dg_abs_diff := abs_diff;
                     dg_rel_x := div abs_diff (abs xv);
                     dg_rel_y := div abs_diff (abs yv) |} ])
  else st.

(** Compare if two gradients are close enough. *)
Definition compare_gradient (x y : vec) (test_eps : T) (msg : string)
    : outcome (bool * list diag) :=
  (* assert(x.rows() == y.rows()); *)
  _ ← cassert ndebug (bool_decide (length x = length y));
  for_each (seq 0 (length x))
    (fun st d =>
       xd ← vec_at ndebug x d;
       yd ← vec_at ndebug y d;
       Ok (check_pair test_eps msg d None xd yd st))
    (true, []).

(** Compare if two jacobians are close enough. *)
Definition compare_jacobian (x y : Matrix T) (test_eps : T) (msg : string)
    : outcome (bool * list diag) :=
  (* assert(x.rows() == y.rows()); assert(x.cols() == y.cols()); *)
  _ ← cassert ndebug (bool_decide (m_rows x = m_rows y));
  _ ← cassert ndebug (bool_decide (m_cols x = m_cols y));
  for_each (seq 0 (m_rows x))
    (fun st d =>
       for_each (seq 0 (m_cols x))
         (fun st c =>
            xv ← mat_at ndebug x d c;
            yv ← mat_at ndebug y d c;
            Ok (check_pair test_eps msg d (Some c) xv yv st))
         st)
    (true, []).

(** Compare if two hessians are close enough. *)
Definition compare_hessian (x y : Matrix T) (test_eps : T) (msg : string)
    : outcome (bool * list diag) :=
  compare_jacobian x y test_eps msg.

(** The documented criterion for one pair:
    [|xi - yi| <= tolerance * max(|xi|, |yi|, 1.0)]. *)
Definition close_enough (tol xv yv : T) : Prop :=
  leb (abs (sub xv yv)) (mul tol (scale_of xv yv)) = true.

(** [a] and [b] are comparable: [a <= b] is the negation of [a > b].
    True of any two reals; false of doubles when one of them is NaN. *)
Definition ordered (a b : T) : Prop := gtb a b = negb (leb a b).

(** The comparison the comparator makes on [xv], [yv] is between
    comparable values. *)
Definition ordered_pair (tol xv yv : T) : Prop :=
  ordered (abs (sub xv yv)) (mul tol (scale_of xv yv)).

(** *** The comparators' contract *)

(** A property of every pair of corresponding elements. *)
Definition vec_pairs_all (P : T → T → Prop) (x y : vec) : Prop :=
  ∀ d xv yv, x !! d = Some xv → y !! d = Some yv → P xv yv.
Definition mat_pairs_all (P : T → T → Prop) (x y : Matrix T) : Prop :=
  ∀ r c, r < m_rows x → c < m_cols x → P (mat_get x r c) (mat_get y r c).

(** Two matrices of one shape. *)
Definition same_shape (x y : Matrix T) : Prop :=
  mat_wf x ∧ mat_wf y ∧ m_rows x = m_rows y ∧ m_cols x = m_cols y.

(** The call returns the flag [b] (and has logged something). *)
Definition returns (o : outcome (bool * list diag)) (b : bool) : Prop :=
  ∃ log, o = Ok (b, log).

(** The flag the loops compute. *)
Definition vec_within (tol : T) (x y : vec) : bool :=
  forallb (fun d => negb (too_far tol (x !!! d) (y !!! d)))
          (seq 0 (length x)).
Definition mat_within (tol : T) (x y : Matrix T) : bool :=
  forallb (fun d =>
             forallb (fun c => negb (too_far tol (mat_get x d c)
                                                 (mat_get y d c)))
                     (seq 0 (m_cols x)))
          (seq 0 (m_rows x)).
End Comparator.

Arguments diag T : clear implicits.

(** ** The two arithmetics *)

Module Double.
(** An integer literal converted to [double] (exact below 2^53). *)
Definition float_of_Z (z : Z) : float :=
  match z with
  | Z0 => PrimFloat.zero
  | Zpos _ => PrimFloat.of_uint63 (Uint63.of_Z z)
  | Zneg p => PrimFloat.opp (PrimFloat.of_uint63 (Uint63.of_Z (Zpos p)))
  end.

#[global] Instance double_arith : Arith float := {|
  of_Z := float_of_Z;
  add := PrimFloat.add;
  sub := PrimFloat.sub;
  mul := PrimFloat.mul;
  div := PrimFloat.div;
  abs := PrimFloat.abs;
  ltb := PrimFloat.ltb;
  leb := PrimFloat.leb
|}.

(** Uninitialised storage, for running the code: NaN everywhere. *)
Definition junk : nat -> float := fun _ => PrimFloat.nan.

(** Sample inputs. *)
Definition d_x0 : list float := [1%float; 2%float].
Definition d_product (v : list float) : float :=
  PrimFloat.mul (v !!! 0) (v !!! 1).
Definition d_second (v : list float) : float := v !!! 1.
Definition d_sum_and_product (v : list float) : list float :=
  [PrimFloat.add (v !!! 0) (v !!! 1); PrimFloat.mul (v !!! 0) (v !!! 1)].
Definition d_empty : Matrix float := {| m_rows := 0; m_cols := 0; m_data := [] |}.

(** A double, seen through its IEEE 754 decoding, that is not below
    zero: NaN, a zero of either sign, or a positive number. *)
Definition not_negative (s : SpecFloat.spec_float) : Prop :=
  match s with
  | SpecFloat.S754_finite true _ _ | SpecFloat.S754_infinity true => False
  | _ => True
  end.

(** NaN or a value whose sign bit is clear. *)
Definition sign_clear (s : SpecFloat.spec_float) : Prop :=
  match s with
  | SpecFloat.S754_finite true _ _ | SpecFloat.S754_infinity true
  | SpecFloat.S754_zero true => False
  | _ => True
  end.
End Double.

Module Exact.
#[global] Instance real_arith : Arith R := {|
  of_Z := IZR;
  add := Rplus;
  sub := Rminus;
  mul := Rmult;
  div := Rdiv;
  abs := Rabs;
  ltb := fun a b => if Rlt_dec a b then true else false;
  leb := fun a b => if Rle_dec a b then true else false
|}.

(** Sample inputs. *)
Definition r_x0 : list R := [1%R; 2%R].
Definition r_product (v : list R) : R := Rmult (v !!! 0) (v !!! 1).
Definition r_sum_and_product (v : list R) : list R :=
  [Rplus (v !!! 0) (v !!! 1); Rmult (v !!! 0) (v !!! 1)].
Definition r_zeros : nat → R := fun _ => 0%R.
Definition r_empty : Matrix R := {| m_rows := 0; m_cols := 0; m_data := [] |}.
End Exact.

(** ** Sizes of the vectors [f] returns *)

(** What [jac.col(d) += c * v] needs of the size [k] of [v] for a column
    of [m] rows: equality where Eigen's assertion is compiled in, and
    otherwise only that [v] reaches as far as the column. *)
Definition size_ok (ndebug : bool) (m k : nat) : Prop :=
  if ndebug then m ≤ k else k = m.

(** How a call ends when a size is wrong. *)
Definition size_failure {A : Type} (ndebug : bool) : outcome A :=
  if ndebug then Undefined else Aborted.

(** [f] returns, at every stencil point of [x], a vector of a size that
    fits the rows of the Jacobian. *)
Definition sizes_fit `{Arith T} (ndebug : bool) (x : list T)
    (f : list T → list T) (a : AccuracyOrder) (eps : T) : Prop :=
  ∀ d s, d < length x → s < innerSteps a →
    size_ok ndebug (length (f x)) (length (f (stencil_point x a eps d s))).

(** Some stencil point at which the size does not fit. *)
Definition size_misfit `{Arith T} (ndebug : bool) (x : list T)
    (f : list T → list T) (a : AccuracyOrder) (eps : T) : Prop :=
  ∃ d s, d < length x ∧ s < innerSteps a ∧
    ¬ size_ok ndebug (length (f x)) (length (f (stencil_point x a eps d s))).

(** ** What the comparators log *)

Section ComparatorLog.
Context {T : Type} `{Arith T}.

(** The record logged for the pair [(xv, yv)] at row [r] (column [c]). *)
Definition diag_for (tol : T) (msg : string) (r : nat) (c : option nat)
    (xv yv : T) : diag T :=
  {| dg_msg := msg; dg_eps := tol; dg_r := r; dg_c := c;
     dg_x := xv; dg_y := yv; dg_abs_diff := abs (sub xv yv);
     dg_rel_x := div (abs (sub xv yv)) (abs xv);
     dg_rel_y := div (abs (sub xv yv)) (abs yv) |}.

(** One record for each pair that is too far apart, in the order of the
    loops: by index for vectors, row after row for matrices. *)
Definition vec_log (tol : T) (msg : string) (x y : list T) : list (diag T) :=
  concat ((fun d => if too_far tol (x !!! d) (y !!! d)
                    then [diag_for tol msg d None (x !!! d) (y !!! d)]
                    else [])
            <$> seq 0 (length x)).

Definition mat_log (tol : T) (msg : string) (x y : Matrix T) : list (diag T) :=
  concat ((fun d =>
             concat ((fun c => if too_far tol (mat_get x d c) (mat_get y d c)
                               then [diag_for tol msg d (Some c)
                                       (mat_get x d c) (mat_get y d c)]
                               else [])
                       <$> seq 0 (m_cols x)))
            <$> seq 0 (m_rows x)).
End ComparatorLog.

(** ** The stencil as a weighted sum, in exact arithmetic *)

(** The pairs (weight, offset) of one accuracy order, in stencil order. *)
Definition stencil_pairs (a : AccuracyOrder) : list (Z * Z) :=
  zip (coeff !!! acc_index a) (coeff2 !!! acc_index a).

(** [acc + w0 * F (o0 * eps) + w1 * F (o1 * eps) + ...] over the reals. *)
Definition weighted_from (l : list (Z * Z)) (F : R → R) (eps acc : R) : R :=
  fold_left (fun acc p => (acc + IZR p.1 * F (IZR p.2 * eps))%R) l acc.

(** The polynomial [c0 + c1 h + c2 h^2 + ...] of coefficients [cs]. *)
Definition poly_eval (cs : list R) (h : R) : R :=
  fold_right (fun c acc => (c + h * acc)%R) 0%R cs.

(** ** Further sample inputs *)

Module Samples.
(** A function whose result has one component up to [v[0] = 1] and two
    beyond, and one that loses a component there. *)
Definition d_growing (v : list float) : list float :=
  if PrimFloat.ltb 1%float (v !!! 0) then [v !!! 0; v !!! 0] else [v !!! 0].
Definition d_shrinking (v : list float) : list float :=
  if PrimFloat.ltb 1%float (v !!! 0) then [v !!! 0] else [v !!! 0; v !!! 0].

Definition d_vec_a : list float := [1%float; 2%float].
Definition d_vec_b : list float := [1%float; 5%float].
Definition d_mat_a : Matrix float :=
  {| m_rows := 2; m_cols := 1; m_data := [1%float; 2%float] |}.
Definition d_mat_b : Matrix float :=
  {| m_rows := 2; m_cols := 1; m_data := [1%float; 5%float] |}.
Definition d_mat_nan : Matrix float :=
  {| m_rows := 1; m_cols := 2; m_data := [PrimFloat.nan; PrimFloat.infinity] |}.

Definition r_vec_a : list R := [1%R; 2%R].
Definition r_vec_b : list R := [1%R; (9 / 4)%R].
Definition r_mat_a : Matrix R :=
  {| m_rows := 1; m_cols := 2; m_data := [1%R; 2%R] |}.
Definition r_mat_b : Matrix R :=
  {| m_rows := 1; m_cols := 2; m_data := [1%R; (9 / 4)%R] |}.
Definition r_small_a : list R := [(1 / 2)%R; 0%R].
Definition r_small_b : list R := [(1 / 4)%R; 0%R].
Definition r_large_a : list R := [2%R; (-4)%R].
Definition r_large_b : list R := [3%R; (-4)%R].

(** The caller's vectors: object 0 is [v = (1, 2)], every other object
    an empty vector. *)
Definition d_objects : store float :=
  fun o => match o with 0 => [1%float; 2%float] | _ => [] end.
Definition r_objects : store R :=
  fun o => match o with 0 => [1%R; 2%R] | _ => [] end.

(** [(x0 + x1, x0 * x1)] along the first axis through [(1, 2)]:
    [3 + h] and [2 + 2 h]. *)
Definition r_axis_coeffs (r : nat) : list R :=
  match r with 0 => [3%R; 1%R] | _ => [2%R; 2%R] end.
End Samples.

(** * Proofs *)

(** ** Loops *)

(** A [for (k = 0; k < n; ++k)] loop keeps an invariant indexed by the
    number of iterations done. *)
Lemma fold_left_seq_inv {St : Type} (P : nat → St → Prop)
    (step : St → nat → St) (n : nat) (s0 : St) :
  P 0 s0 →
  (∀ k s, k < n → P k s → P (S k) (step s k)) →
  P n (fold_left step (seq 0 n) s0).
Proof.
  intros H0 Hstep.
  assert (G : ∀ k, k ≤ n → P k (fold_left step (seq 0 k) s0)).
  { induction k as [|k IH]; intros Hk; [exact H0|].
    rewrite seq_S, fold_left_app. simpl. apply Hstep; [lia|]. apply IH. lia. }
  apply G. lia.
Qed.

(** The same for a loop whose body may fail: if no iteration fails from a
    state satisfying the invariant, the loop does not fail. *)
Lemma for_each_seq_inv {St : Type} (P : nat → St → Prop)
    (body : St → nat → outcome St) (n : nat) (s0 : St) :
  P 0 s0 →
  (∀ k s, k < n → P k s → ∃ s', body s k = Ok s' ∧ P (S k) s') →
  ∃ s', for_each (seq 0 n) body s0 = Ok s' ∧ P n s'.
Proof.
  intros H0 Hstep.
  assert (G : ∀ m k s, k + m = n → P k s →
                ∃ s', for_each (seq k m) body s = Ok s' ∧ P n s').
  { induction m as [|m IH]; intros k s Hk HP; simpl.
    - exists s. split; [done|]. by replace n with k by lia.
    - destruct (Hstep k s) as (s1 & -> & HP1); [lia|done|]. simpl.
      apply IH; [lia|done]. }
  apply (G n 0 s0); [lia|done].
Qed.

Lemma length_concat_const {A : Type} (ls : list (list A)) (k : nat) :
  Forall (fun l => length l = k) ls → length (concat ls) = length ls * k.
Proof.
  induction 1 as [|l ls Hl _ IH]; simpl; [done|].
  rewrite length_app, IH, Hl. lia.
Qed.

(** ** finite_gradient *)

Section GradientProofs.
Context {T : Type} `{Arith T}.
Variable uninit : nat -> T.
Local Abbreviation vec := (list T).
Implicit Types (x xx grad : vec) (f : vec -> T) (a : AccuracyOrder) (eps : T).

Lemma length_vec_resize n (v : vec) : length (vec_resize uninit n v) = n.
Proof.
  unfold vec_resize. destruct (decide (length v = n)) as [E|E]; [done|].
  by rewrite length_fmap, length_seq.
Qed.

Lemma gradient_inner_loop f a eps d l : ∀ st,
  gs_xx st = gs_x st →
  d < length (gs_x st) →
  length (gs_grad st) = length (gs_x st) →
  fold_left (gradient_inner f a eps d) l st =
  {| gs_x := gs_x st;
     gs_xx := gs_x st;
     gs_grad := <[d := stencil_sum_from a
                       (fun s => f (stencil_point (gs_x st) a eps d s)) l
                       (gs_grad st !!! d)]> (gs_grad st);
     gs_evals := gs_evals st ++ (stencil_point (gs_x st) a eps d <$> l) |}.
Proof.
  induction l as [|s l IH]; intros [x xx grad ev]; simpl; intros -> Hd Hg.
  - rewrite app_nil_r. f_equal. symmetry. apply list_insert_id.
    apply list_lookup_lookup_total_lt. lia.
  - rewrite IH; simpl; [| | done |].
    + f_equal.
      * rewrite list_insert_insert_eq. f_equal.
        rewrite list_lookup_total_insert_eq by lia. done.
      * by rewrite <- app_assoc.
    + rewrite list_insert_insert_eq. apply list_insert_id.
      apply list_lookup_lookup_total_lt. lia.
    + by rewrite length_insert.
Qed.

Lemma gradient_outer_step f a eps st d :
  gs_xx st = gs_x st →
  d < length (gs_x st) →
  length (gs_grad st) = length (gs_x st) →
  gradient_outer f a eps st d =
  {| gs_x := gs_x st;
     gs_xx := gs_x st;
     gs_grad := <[d := gradient_entry (gs_x st) f a eps d]> (gs_grad st);
     gs_evals := gs_evals st ++ stencil_points (gs_x st) a eps d |}.
Proof.
  intros Hxx Hd Hg. unfold gradient_outer.
  rewrite gradient_inner_loop; simpl; [|done|done|by rewrite length_insert].
  rewrite list_insert_insert_eq, !list_lookup_total_insert_eq
    by (rewrite ?length_insert; lia).
  by rewrite list_insert_insert_eq.
Qed.

Lemma finite_gradient_inv x f grad a eps :
  gradient_inv x f a eps (length x) (finite_gradient uninit x f grad a eps).
Proof.
  unfold finite_gradient. apply (fold_left_seq_inv (gradient_inv x f a eps)).
  - repeat split; simpl; auto using length_vec_resize.
  - intros k st Hk (Hx & Hxx & Hlen & Hpre & Hev).
    rewrite gradient_outer_step by (rewrite ?Hx; auto; congruence).
    rewrite Hx. unfold gradient_inv. cbn [gs_x gs_xx gs_grad gs_evals].
    split_and!; auto.
    + by rewrite length_insert.
    + rewrite seq_S, fmap_app. simpl. rewrite <- Hpre.
      rewrite (take_S_r _ _ (gradient_entry x f a eps k)).
      * by rewrite take_insert_ge by lia.
      * apply list_lookup_insert_eq. lia.
    + rewrite seq_S, fmap_app, concat_app. simpl.
      by rewrite app_nil_r, Hev.
Qed.
End GradientProofs.

(** ** finite_gradient on the caller's objects *)

(** Two loops over one list whose bodies keep a relation between their
    states end in related states. *)
Lemma fold_left_sim {A B C : Type} (R : A → B → Prop) (f : A → C → A)
    (g : B → C → B) (l : list C) :
  (∀ a b c, R a b → R (f a c) (g b c)) →
  ∀ a b, R a b → R (fold_left f l a) (fold_left g l b).
Proof.
  intros Hstep. induction l as [|c l IH]; intros a b HR; simpl; [done|].
  by apply IH, Hstep.
Qed.

Lemma fold_left_keeps {A C : Type} (P : A → Prop) (f : A → C → A)
    (l : list C) :
  (∀ a c, P a → P (f a c)) → ∀ a, P a → P (fold_left f l a).
Proof.
  intros Hstep. induction l as [|c l IH]; intros a HP; simpl; [done|].
  by apply IH, Hstep.
Qed.

(** A loop whose body adds [k] to a measure adds [k] per iteration. *)
Lemma fold_left_count {A C : Type} (m : A → nat) (f : A → C → A) (k : nat)
    (l : list C) :
  (∀ a c, m (f a c) = m a + k) →
  ∀ a, m (fold_left f l a) = m a + length l * k.
Proof.
  intros Hstep. induction l as [|c l IH]; intros a; simpl; [lia|].
  rewrite IH, Hstep. lia.
Qed.

Section GradientCallProofs.
Context {T : Type} `{Arith T}.
Variable uninit : nat -> T.
Implicit Types (mem : store T) (x grad o : obj) (f : list T -> T)
  (a : AccuracyOrder) (eps : T).

Lemma store_put_eq mem o (v : list T) : store_put mem o v o = v.
Proof. unfold store_put. by rewrite decide_True. Qed.

Lemma store_put_ne mem o o' (v : list T) :
  o' ≠ o → store_put mem o v o' = mem o'.
Proof. intros Hne. unfold store_put. by rewrite decide_False. Qed.

Lemma gradient_call_inner_sim mem x grad f a eps d (st : grad_state)
    (c : grad_call) s :
  x ≠ grad → same_run mem x grad st c →
  same_run mem x grad (gradient_inner f a eps d st s)
    (gradient_call_inner x grad f a eps d c s).
Proof.
  intros Hne (Hx & Hg & Hfr & Hxx & Hev).
  unfold same_run, gradient_inner, gradient_call_inner.
  cbn [gs_x gs_xx gs_grad gs_evals gc_store gc_xx gc_evals].
  rewrite store_put_ne by done. rewrite store_put_eq.
  rewrite Hx, Hg, Hxx, Hev. split_and!; try done.
  intros o Ho. rewrite store_put_ne by done. by apply Hfr.
Qed.

Lemma gradient_call_outer_sim mem x grad f a eps (st : grad_state)
    (c : grad_call) d :
  x ≠ grad → same_run mem x grad st c →
  same_run mem x grad (gradient_outer f a eps st d)
    (gradient_call_outer x grad f a eps c d).
Proof.
  intros Hne (Hx & Hg & Hfr & Hxx & Hev).
  unfold gradient_outer, gradient_call_outer.
  match goal with
  | |- context [fold_left (gradient_inner f a eps d) ?l ?s0] =>
      match goal with
      | |- context [fold_left (gradient_call_inner x grad f a eps d) l ?c0] =>
          assert (Hin : same_run mem x grad
                          (fold_left (gradient_inner f a eps d) l s0)
                          (fold_left (gradient_call_inner x grad f a eps d)
                             l c0))
      end
  end.
  { apply (fold_left_sim (same_run mem x grad)).
    - intros s1 c1 k. by apply gradient_call_inner_sim.
    - unfold same_run.
      cbn [gs_x gs_xx gs_grad gs_evals gc_store gc_xx gc_evals].
      rewrite store_put_ne by done. rewrite store_put_eq.
      rewrite Hx, Hg, Hxx, Hev. split_and!; try done.
      intros o Ho. rewrite store_put_ne by done. by apply Hfr. }
  destruct Hin as (Hx1 & Hg1 & Hfr1 & Hxx1 & Hev1).
  unfold same_run.
  cbn [gs_x gs_xx gs_grad gs_evals gc_store gc_xx gc_evals].
  rewrite store_put_ne by done. rewrite store_put_eq.
  rewrite Hx1, Hg1, Hxx1, Hev1. split_and!; try done.
  intros o Ho. rewrite store_put_ne by done. by apply Hfr1.
Qed.

(** When [x] and [grad] are two objects the call does what the functional
    model says: [grad] receives [gs_grad], [f] is called at [gs_evals],
    and every other object, [x] among them, is left as it was. *)
Lemma finite_gradient_call_separate mem x grad f a eps :
  x ≠ grad →
  same_run mem x grad (finite_gradient uninit (mem x) f (mem grad) a eps)
    (finite_gradient_call uninit mem x grad f a eps).
Proof.
  intros Hne. unfold finite_gradient, finite_gradient_call. cbv zeta.
  rewrite !store_put_ne by done.
  apply (fold_left_sim (same_run mem x grad)).
  - intros s1 c1 k. by apply gradient_call_outer_sim.
  - unfold same_run.
    cbn [gs_x gs_xx gs_grad gs_evals gc_store gc_xx gc_evals].
    rewrite store_put_ne by done. rewrite store_put_eq. split_and!; try done.
    intros o Ho. by rewrite store_put_ne.
Qed.

(** Whatever [x] and [grad] name, the call writes to [grad] only. *)
Lemma finite_gradient_call_frame mem x grad f a eps o :
  o ≠ grad → gc_store (finite_gradient_call uninit mem x grad f a eps) o = mem o.
Proof.
  intros Ho. unfold finite_gradient_call. cbv zeta.
  apply (fold_left_keeps (fun c => gc_store c o = mem o)).
  - intros c d Hc. unfold gradient_call_outer. cbn [gc_store].
    rewrite store_put_ne by done.
    apply (fold_left_keeps (fun c => gc_store c o = mem o)).
    + intros c' s Hc'. unfold gradient_call_inner. cbn [gc_store].
      by rewrite store_put_ne.
    + cbn [gc_store]. by rewrite store_put_ne.
  - cbn [gc_store]. by rewrite store_put_ne.
Qed.

(** Whatever [x] and [grad] name, [f] is called [innerSteps] times for
    each of the [x.rows()] dimensions. *)
Lemma finite_gradient_call_count mem x grad f a eps :
  length (gc_evals (finite_gradient_call uninit mem x grad f a eps))
  = length (mem x) * innerSteps a.
Proof.
  unfold finite_gradient_call. cbv zeta.
  rewrite (fold_left_count (fun c => length (gc_evals c)) _ (innerSteps a)).
  - cbn [gc_evals length]. rewrite length_seq.
    destruct (decide (x = grad)) as [->|Hne].
    + by rewrite store_put_eq, length_vec_resize.
    + by rewrite store_put_ne.
  - intros c d. unfold gradient_call_outer. cbn [gc_evals].
    rewrite (fold_left_count (fun c => length (gc_evals c)) _ 1).
    + cbn [gc_evals]. rewrite length_seq. lia.
    + intros c' s. unfold gradient_call_inner. cbn [gc_evals].
      rewrite length_app. simpl. lia.
Qed.
End GradientCallProofs.

Lemma length_stencil_points {T : Type} `{Arith T} (x : list T) a eps d :
  length (stencil_points x a eps d) = innerSteps a.
Proof. unfold stencil_points. by rewrite length_fmap, length_seq. Qed.

Lemma stencil_point_differs {T : Type} `{Arith T} (x : list T) a eps d s :
  differs_in_at_most_one x (stencil_point x a eps d s).
Proof.
  unfold stencil_point, perturbed. split; [apply length_insert|].
  exists d. intros k Hk. by apply list_lookup_insert_ne.
Qed.

(** C1 (amended): for every call in which [grad] is not the object [x],
    whatever the point [x] of length n, the pure [f], the accuracy order
    and the step [eps], finite_gradient leaves in [grad] a vector of length
    n whose entry [d] is the sum over the stencil positions [s] of
    [coeff[a][s] * f(x with x[d] replaced by x[d] + coeff2[a][s] * eps)],
    divided by [dd[a] * eps] (in any arithmetic, the sum taken in stencil
    order starting from 0). *)
Theorem finite_gradient_formula {T : Type} `{Arith T} (uninit : nat → T)
    (mem : store T) (x grad : obj) (f : list T → T) (a : AccuracyOrder)
    (eps : T) :
  x ≠ grad →
  let g := gc_store (finite_gradient_call uninit mem x grad f a eps) grad in
  length g = length (mem x) ∧
  g = (fun d =>
         div (stencil_sum a
                (fun s => f (<[d := add (mem x !!! d) (mul (c2 a s) eps)]>
                               (mem x))))
             (mul (of_Z (dd !!! acc_index a)) eps))
      <$> seq 0 (length (mem x)).
Proof.
  intros Hne.
  destruct (finite_gradient_call_separate uninit mem x grad f a eps Hne)
    as (_ & Hg & _).
  destruct (finite_gradient_inv uninit (mem x) f (mem grad) a eps)
    as (_ & _ & Hlen & Hpre & _).
  cbv zeta. rewrite Hg. split; [done|].
  rewrite <- Hlen, firstn_all in Hpre. by rewrite Hpre, Hlen.
Qed.

(** C6 (amended): every call of finite_gradient on a point of length n
    evaluates [f] exactly [n * 2 * (a + 1)] times, whether or not [grad]
    is the object [x]; when [grad] is not the object [x], every argument
    passed to [f] differs from [x] in at most one coordinate. *)
Theorem finite_gradient_evaluations {T : Type} `{Arith T} (uninit : nat → T)
    (mem : store T) (x grad : obj) (f : list T → T) (a : AccuracyOrder)
    (eps : T) :
  let evals := gc_evals (finite_gradient_call uninit mem x grad f a eps) in
  length evals = length (mem x) * (2 * (acc_index a + 1)) ∧
  (x ≠ grad → Forall (differs_in_at_most_one (mem x)) evals).
Proof.
  cbv zeta. split; [apply finite_gradient_call_count|].
  intros Hne.
  destruct (finite_gradient_call_separate uninit mem x grad f a eps Hne)
    as (_ & _ & _ & _ & Hev).
  destruct (finite_gradient_inv uninit (mem x) f (mem grad) a eps)
    as (_ & _ & _ & _ & Hpts).
  rewrite Hev, Hpts.
  apply Forall_concat, Forall_fmap, Forall_forall. intros d _. simpl.
  apply Forall_fmap, Forall_forall. intros s _. simpl.
  apply stencil_point_differs.
Qed.

(** ** Matrices *)

Section MatrixProofs.
Context {T : Type} `{Arith T}.
Variable uninit : nat -> T.
Implicit Types (M : Matrix T).

Lemma mat_idx_lt M r c :
  mat_wf M → r < m_rows M → c < m_cols M → mat_idx M r c < length (m_data M).
Proof. unfold mat_wf, mat_idx. intros -> Hr Hc. nia. Qed.

Lemma mat_idx_inj M r c r' c' :
  r < m_rows M → r' < m_rows M →
  mat_idx M r c = mat_idx M r' c' → r = r' ∧ c = c'.
Proof.
  unfold mat_idx. intros Hr Hr' E.
  destruct (Nat.lt_trichotomy c c') as [Hc|[->|Hc]]; [|lia|].
  - pose proof (Nat.mul_le_mono_r (S c) c' (m_rows M) Hc). lia.
  - pose proof (Nat.mul_le_mono_r (S c') c (m_rows M) Hc). lia.
Qed.

Lemma mat_wf_resize r c M : mat_wf (mat_resize uninit r c M).
Proof.
  unfold mat_wf, mat_resize. simpl. case_decide; [done|].
  by rewrite length_fmap, length_seq.
Qed.

Lemma mat_wf_set M r c v : mat_wf M → mat_wf (mat_set M r c v).
Proof. unfold mat_wf, mat_set. simpl. by rewrite length_insert. Qed.

Lemma mat_get_set_eq M r c v :
  mat_wf M → r < m_rows M → c < m_cols M → mat_get (mat_set M r c v) r c = v.
Proof.
  intros Hwf Hr Hc. unfold mat_get, mat_set, mat_idx. simpl.
  apply list_lookup_total_insert_eq. by apply mat_idx_lt.
Qed.

Lemma mat_get_set_ne M r c v r' c' :
  r < m_rows M → r' < m_rows M → (r, c) ≠ (r', c') →
  mat_get (mat_set M r c v) r' c' = mat_get M r' c'.
Proof.
  intros Hr Hr' Hne. unfold mat_get, mat_set. simpl.
  apply list_lookup_total_insert_ne. intros E.
  apply mat_idx_inj in E as [-> ->]; done.
Qed.

Lemma col_map_spec (g : nat → T → T) d M :
  mat_wf M → d < m_cols M →
  m_rows (col_map g d M) = m_rows M ∧
  m_cols (col_map g d M) = m_cols M ∧
  mat_wf (col_map g d M) ∧
  ∀ r c, r < m_rows M → c < m_cols M →
    mat_get (col_map g d M) r c =
    if decide (c = d) then g r (mat_get M r c) else mat_get M r c.
Proof.
  intros Hwf Hd. unfold col_map, mat_wf, mat_get, mat_idx. simpl.
  set (step := fun dat r =>
         <[r + d * m_rows M := g r (dat !!! (r + d * m_rows M))]> dat).
  pose (P := fun (k : nat) (dat : list T) =>
               length dat = length (m_data M) ∧
               ∀ r c, r < m_rows M → c < m_cols M →
                 dat !!! (r + c * m_rows M) =
                 if decide (c = d ∧ r < k)
                 then g r (m_data M !!! (r + c * m_rows M))
                 else m_data M !!! (r + c * m_rows M)).
  assert (G : P (m_rows M) (fold_left step (seq 0 (m_rows M)) (m_data M))).
  { apply (fold_left_seq_inv P); unfold P.
    - split; [done|]. intros r c _ _. case_decide; [lia|done].
    - intros k dat Hk [Hlen Hdat]. unfold step. split.
      + by rewrite length_insert.
      + intros r c Hr Hc.
        destruct (decide ((k, d) = (r, c))) as [E|E].
        * injection E as <- <-.
          rewrite list_lookup_total_insert_eq
            by (rewrite Hlen; by apply mat_idx_lt).
          rewrite Hdat by done. repeat case_decide; (done || lia).
        * rewrite list_lookup_total_insert_ne.
          -- rewrite Hdat by done.
             assert (Hne : ¬ (r = k ∧ c = d)) by (intros [-> ->]; done).
             repeat case_decide; try done; lia.
          -- intros E'. apply (mat_idx_inj M) in E' as [-> ->]; done. }
  destruct G as [Hlen Hdat]. split_and!; [done|done|congruence|].
  intros r c Hr Hc. rewrite Hdat by done.
  repeat case_decide; try done; lia.
Qed.
End MatrixProofs.

(** ** finite_hessian *)

Section HessianProofs.
Context {T : Type} `{Arith T}.
Variable uninit : nat -> T.
Local Abbreviation vec := (list T).
Implicit Types (x xx : vec) (f : vec -> T) (eps : T).

(** Whatever was written to coordinates [i] and [j], assigning [x[i]]
    and [x[j]] back gives [x] again. *)
Lemma restore_two x xx i j :
  length xx = length x →
  (∀ k, k ≠ i → k ≠ j → xx !! k = x !! k) →
  <[j := x !!! j]> (<[i := x !!! i]> xx) = x.
Proof.
  intros Hlen Hothers. apply list_eq. intros k.
  rewrite !list_lookup_insert, !length_insert, Hlen.
  repeat case_decide; destruct_and?; subst;
    try (symmetry; apply list_lookup_lookup_total_lt; lia).
  destruct (decide (k < length x)) as [Hk|Hk].
  - apply Hothers; intros ->; tauto.
  - rewrite !lookup_ge_None_2; [done|lia..].
Qed.

Lemma hessian_inner_step f eps i j st :
  hs_xx st = hs_x st →
  hessian_inner f eps i st j =
  {| hs_x := hs_x st;
     hs_xx := hs_x st;
     hs_hess := mat_set (hs_hess st) i j
                  (hessian_entry_code (hs_x st) f eps i j);
     hs_evals := hs_evals st ++ hess_points_code (hs_x st) eps i j |}.
Proof.
  destruct st as [x xx hess ev]. simpl. intros ->.
  unfold hessian_inner. simpl. f_equal.
  apply restore_two.
  - by rewrite !length_insert.
  - intros k Hi Hj. by rewrite !list_lookup_insert_ne by done.
Qed.

Lemma hessian_inner_inv x f eps i j st :
  i < length x → j < length x →
  hessian_inv x f eps i j st →
  hessian_inv x f eps i (S j) (hessian_inner f eps i st j).
Proof.
  intros Hi Hj (Hx & Hxx & Hr & Hc & Hwf & Hent & Hev).
  rewrite hessian_inner_step by congruence. rewrite Hx.
  unfold hessian_inv. cbn [hs_x hs_xx hs_hess hs_evals].
  split_and!; auto using mat_wf_set.
  - intros i' j' Hi' Hj' Hdone.
    destruct (decide ((i, j) = (i', j'))) as [E|E].
    + injection E as <- <-. apply mat_get_set_eq; [done|lia..].
    + rewrite mat_get_set_ne by (done || lia).
      apply Hent; [done..|]. destruct Hdone as [?|[-> ?]]; [by left|].
      right. split; [done|]. assert (j' ≠ j) by congruence. lia.
  - rewrite Hev, seq_S, fmap_app, concat_app. simpl.
    by rewrite ?app_nil_r, ?app_assoc.
Qed.

Lemma hessian_outer_inv x f eps i st :
  i < length x →
  hessian_inv x f eps i 0 st →
  hessian_inv x f eps (S i) 0 (hessian_outer f eps st i).
Proof.
  intros Hi Hinv. unfold hessian_outer.
  assert (hs_x st = x) as -> by apply Hinv.
  assert (Hend : hessian_inv x f eps i (length x)
            (fold_left (hessian_inner f eps i) (seq 0 (length x)) st)).
  { apply (fold_left_seq_inv (hessian_inv x f eps i)); [done|].
    intros j s Hj. by apply hessian_inner_inv. }
  destruct Hend as (Hx & Hxx & Hr & Hc & Hwf & Hent & Hev).
  unfold hessian_inv. split_and!; auto.
  - intros i' j' Hi' Hj' Hdone. apply Hent; [done..|].
    destruct Hdone as [?|[_ ?]]; [|lia].
    destruct (decide (i' = i)) as [->|]; [by right|left; lia].
  - rewrite Hev, seq_S, fmap_app, concat_app. simpl.
    by rewrite !app_nil_r.
Qed.

Lemma finite_hessian_inv x f hess eps :
  hessian_inv x f eps (length x) 0 (finite_hessian uninit x f hess eps).
Proof.
  unfold finite_hessian.
  apply (fold_left_seq_inv (fun i => hessian_inv x f eps i 0)).
  - unfold hessian_inv. cbn [hs_x hs_xx hs_hess hs_evals].
    split_and!; auto using mat_wf_resize. intros i' j' _ _ [?|[_ ?]]; lia.
  - intros i st Hi. by apply hessian_outer_inv.
Qed.

(** What the code computes, in any arithmetic: an n-by-n matrix whose
    entry [(i, j)] combines [f] at the four points the code builds, and
    exactly those four evaluations per pair, pairs in row order. *)
Lemma finite_hessian_code x f hess eps :
  let st := finite_hessian uninit x f hess eps in
  let n := length x in
  m_rows (hs_hess st) = n ∧ m_cols (hs_hess st) = n ∧ mat_wf (hs_hess st) ∧
  (∀ i j, i < n → j < n →
     mat_get (hs_hess st) i j = hessian_entry_code x f eps i j) ∧
  hs_evals st =
    concat ((fun i => concat (hess_points_code x eps i <$> seq 0 n))
              <$> seq 0 n) ∧
  length (hs_evals st) = 4 * n * n ∧
  hs_x st = x ∧ hs_xx st = x.
Proof.
  destruct (finite_hessian_inv x f hess eps)
    as (Hx & Hxx & Hr & Hc & Hwf & Hent & Hev).
  cbn [seq fmap list_fmap concat] in Hev. rewrite app_nil_r in Hev.
  cbv zeta. split_and!; try done.
  - intros i j Hi Hj. apply Hent; [done..|]. by left.
  - rewrite Hev. rewrite (length_concat_const _ (4 * length x)).
    + rewrite length_fmap, length_seq. lia.
    + apply Forall_fmap, Forall_forall. intros i _. simpl.
      rewrite (length_concat_const _ 4).
      * rewrite length_fmap, length_seq. lia.
      * apply Forall_fmap, Forall_forall. by intros j _.
Qed.
End HessianProofs.

(** ** finite_jacobian *)

Section JacobianProofs.
Context {T : Type} `{Arith T}.
Variable uninit : nat -> T.
Variable ndebug : bool.
Local Abbreviation vec := (list T).
Implicit Types (x xx : vec) (f : vec -> vec) (a : AccuracyOrder) (eps : T).

Lemma stencil_sum_from_snoc a (g : nat → T) k acc :
  stencil_sum_from a g (seq 0 (S k)) acc =
  add (stencil_sum_from a g (seq 0 k) acc) (mul (c1 a k) (g k)).
Proof. unfold stencil_sum_from. by rewrite seq_S, fold_left_app. Qed.

Lemma jacobian_inner_ok x f a eps d jac0 ev0 k st :
  (∀ v, length (f v) = m_rows jac0) →
  d < m_cols jac0 → d < length x →
  jac_inner_inv x f a eps d jac0 ev0 k st →
  ∃ st', jacobian_inner ndebug f a eps d st k = Ok st' ∧
         jac_inner_inv x f a eps d jac0 ev0 (S k) st'.
Proof.
  intros Hf Hd Hdx (Hx & Hxx & Hr & Hc & Hwf & Hent & Hev).
  unfold jacobian_inner. rewrite Hxx, Hx.
  fold (perturbed x d (mul (c2 a k) eps)). fold (stencil_point x a eps d k).
  set (p := stencil_point x a eps d k).
  set (g := fun (r : nat) (old : T) => add old (mul (c1 a k) (f p !!! r))).
  assert (Hadd : col_add_scaled ndebug (c1 a k) (f p) d (js_jac st)
                 = Ok (col_map g d (js_jac st))).
  { unfold col_add_scaled. rewrite Hf, Hr.
    destruct ndebug; case_decide; (done || lia). }
  rewrite Hadd. simpl. eexists. split; [done|].
  destruct (col_map_spec g d (js_jac st)) as (Hr' & Hc' & Hwf' & Hent');
    [done|lia|].
  unfold jac_inner_inv. cbn [js_x js_xx js_jac js_evals].
  split_and!; try congruence.
  - unfold p, stencil_point, perturbed.
    rewrite list_insert_insert_eq. apply list_insert_id.
    by apply list_lookup_lookup_total_lt.
  - intros r c Hrr Hcc. rewrite Hent' by lia. rewrite Hent by done.
    case_decide; [|done]. by rewrite stencil_sum_from_snoc.
  - by rewrite Hev, seq_S, fmap_app, app_assoc.
Qed.

Lemma jacobian_outer_ok x f a eps d st :
  (∀ v, length (f v) = length (f x)) →
  d < length x →
  jac_outer_inv x f a eps d st →
  ∃ st', jacobian_outer ndebug f a eps st d = Ok st' ∧
         jac_outer_inv x f a eps (S d) st'.
Proof.
  intros Hf Hd (Hx & Hxx & Hr & Hc & Hwf & Hent & Hev).
  unfold jacobian_outer.
  set (zero := fun (_ : nat) (_ : T) => of_Z 0).
  destruct (col_map_spec zero d (js_jac st)) as (Hr0 & Hc0 & Hwf0 & Hent0);
    [done|lia|].
  set (jac0 := col_map zero d (js_jac st)) in *.
  destruct (for_each_seq_inv
              (jac_inner_inv x f a eps d jac0 (js_evals st))
              (jacobian_inner ndebug f a eps d) (innerSteps a)
              {| js_x := js_x st; js_xx := js_xx st; js_jac := jac0;
                 js_evals := js_evals st |})
    as (st1 & -> & (Hx1 & Hxx1 & Hr1 & Hc1 & Hwf1 & Hent1 & Hev1)).
  { unfold jac_inner_inv. cbn [js_x js_xx js_jac js_evals].
    split_and!; try done.
    - intros r c Hrr Hcc. case_decide; [|done]. subst c.
      rewrite Hent0 by lia. by case_decide.
    - by rewrite app_nil_r. }
  { intros k s _. apply jacobian_inner_ok; [intros v|..]; try lia.
    rewrite Hf. lia. }
  simpl. eexists. split; [done|].
  set (quot := fun (_ : nat) (old : T) => div old (ddVal a eps)).
  destruct (col_map_spec quot d (js_jac st1)) as (Hr2 & Hc2 & Hwf2 & Hent2);
    [done|lia|].
  unfold jac_outer_inv. cbn [js_x js_xx js_jac js_evals].
  split_and!; try congruence.
  - intros r c Hrr Hcc. rewrite Hent2, Hent1 by lia.
    case_decide as Hcd.
    + by subst c.
    + rewrite Hent0 by lia. rewrite decide_False by done.
      apply Hent; lia.
  - rewrite Hev1, Hev, seq_S, fmap_app, concat_app. simpl.
    by rewrite app_nil_r.
Qed.

Lemma finite_jacobian_ok x f jac a eps :
  (∀ v, length (f v) = length (f x)) →
  ∃ st, finite_jacobian uninit ndebug x f jac a eps = Ok st ∧
        jac_outer_inv x f a eps (length x) st.
Proof.
  intros Hf. unfold finite_jacobian.
  apply (for_each_seq_inv (jac_outer_inv x f a eps)).
  - unfold jac_outer_inv. cbn [js_x js_xx js_jac js_evals].
    split_and!; auto using mat_wf_resize. intros r c _ ?. lia.
  - intros d st Hd. by apply jacobian_outer_ok.
Qed.
End JacobianProofs.

Lemma stencil_sum_from_ext {T : Type} `{Arith T} a (g g' : nat → T) l :
  (∀ s, s ∈ l → g s = g' s) →
  ∀ acc, stencil_sum_from a g l acc = stencil_sum_from a g' l acc.
Proof.
  unfold stencil_sum_from.
  induction l as [|s l IH]; intros Hg acc; simpl; [done|].
  rewrite (Hg s) by left. apply IH. intros s' Hs'. apply Hg. by right.
Qed.

(** C3: for a function [f] from R^n to R^m, finite_jacobian evaluates [f]
    first at the unperturbed [x], from which only the row count m is
    taken, and returns an m-by-n matrix whose column [d] is the gradient
    formula applied componentwise to the output of [f] at the stencil
    points; [f] is evaluated [n * 2 * (a + 1) + 1] times in all.  The
    value of the first evaluation plays no part: any [g] with the same
    output size that agrees with [f] at the stencil points gives the same
    entries, whatever [g x] is. *)
Theorem finite_jacobian_formula {T : Type} `{Arith T} (uninit : nat → T)
    (ndebug : bool) (x : list T) (f : list T → list T) (jac : Matrix T)
    (a : AccuracyOrder) (eps : T) (m : nat) :
  (∀ v, length (f v) = m) →
  ∃ st, finite_jacobian uninit ndebug x f jac a eps = Ok st ∧
    m_rows (js_jac st) = m ∧ m_cols (js_jac st) = length x ∧
    (∀ r d, r < m → d < length x →
       mat_get (js_jac st) r d =
       div (stencil_sum a
              (fun s => f (<[d := add (x !!! d) (mul (c2 a s) eps)]> x) !!! r))
           (mul (of_Z (dd !!! acc_index a)) eps)) ∧
    js_evals st = x :: concat (stencil_points x a eps <$> seq 0 (length x)) ∧
    length (js_evals st) = length x * (2 * (acc_index a + 1)) + 1 ∧
    (∀ g, (∀ v, length (g v) = m) →
          (∀ d s, g (stencil_point x a eps d s) = f (stencil_point x a eps d s)) →
          ∃ st', finite_jacobian uninit ndebug x g jac a eps = Ok st' ∧
                 ∀ r d, r < m → d < length x →
                   mat_get (js_jac st') r d = mat_get (js_jac st) r d).
Proof.
  intros Hf.
  destruct (finite_jacobian_ok uninit ndebug x f jac a eps)
    as (st & Hst & (Hx & Hxx & Hr & Hc & Hwf & Hent & Hev)).
  { intros v. by rewrite !Hf. }
  exists st. rewrite Hf in Hr. split_and!; try done.
  - intros r d Hrr Hd. rewrite Hent by (rewrite ?Hf; lia). done.
  - rewrite Hev. simpl. rewrite (length_concat_const _ (innerSteps a)).
    + rewrite length_fmap, length_seq. unfold innerSteps. lia.
    + apply Forall_fmap, Forall_forall. intros d _. simpl.
      apply length_stencil_points.
  - intros g Hg Hagree.
    destruct (finite_jacobian_ok uninit ndebug x g jac a eps)
      as (st' & Hst' & (_ & _ & _ & _ & _ & Hent' & _)).
    { intros v. by rewrite !Hg. }
    exists st'. split; [done|]. intros r d Hrr Hd.
    rewrite Hent' by (rewrite ?Hg; lia). rewrite Hent by (rewrite ?Hf; lia).
    unfold jacobian_entry, gradient_entry, stencil_sum. f_equal.
    apply stencil_sum_from_ext. intros s _. by rewrite Hagree.
Qed.

(** ** The caller's point *)

Lemma for_each_preserves {St B : Type} (P : St → Prop)
    (body : St → B → outcome St) (l : list B) :
  (∀ s b s', P s → body s b = Ok s' → P s') →
  ∀ s s', P s → for_each l body s = Ok s' → P s'.
Proof.
  intros Hbody. induction l as [|b l IH]; intros s s' HP; simpl.
  - intros [= <-]. done.
  - destruct (body s b) as [s1| |] eqn:E; simpl; [|done..].
    apply IH. by eapply Hbody.
Qed.

Lemma restore_one {T : Type} `{Arith T} (x : list T) (d : nat) (v : T) :
  <[d := x !!! d]> (<[d := v]> x) = x.
Proof.
  rewrite list_insert_insert_eq. apply list_insert_id'.
  intros Hd. by apply list_lookup_lookup_total_lt.
Qed.

Lemma finite_jacobian_point {T : Type} `{Arith T} (uninit : nat → T)
    (ndebug : bool) (x : list T) (f : list T → list T) (jac : Matrix T)
    (a : AccuracyOrder) (eps : T) (st : jac_state) :
  finite_jacobian uninit ndebug x f jac a eps = Ok st →
  js_x st = x ∧ js_xx st = x.
Proof.
  unfold finite_jacobian.
  apply (for_each_preserves (fun s => js_x s = x ∧ js_xx s = x)); [|done].
  intros s d s' [Hx Hxx]. unfold jacobian_outer.
  destruct (for_each _ _ _) as [s1| |] eqn:E; simpl; [|done..].
  intros [= <-]. simpl. revert E.
  apply (for_each_preserves (fun s => js_x s = x ∧ js_xx s = x)); [|done].
  clear. intros s k s' [Hx Hxx]. unfold jacobian_inner.
  destruct (col_add_scaled _ _ _ _ _) as [j1| |]; simpl; [|done..].
  intros [= <-]. simpl. rewrite Hx, Hxx. split; [done|]. apply restore_one.
Qed.

(** C8 (amended): when finite_jacobian or finite_hessian returns, and
    when finite_gradient returns from a call in which [grad] is not the
    object [x], the caller's point [x] is what it was at entry; so is the
    working copy [xx] the functions perturb, every coordinate of which has
    been assigned back from [x].  finite_gradient changes no object of the
    caller but [grad].  ([x] is a [const VectorXd&] and the outputs of
    finite_jacobian and finite_hessian are matrices, which [x] cannot be:
    there the source has no assignment that reaches [x].) *)
Theorem point_unchanged {T : Type} `{Arith T} (uninit : nat → T)
    (ndebug : bool) (mem : store T) (x grad : obj) (f : list T → T)
    (fv : list T → list T) (jac hess : Matrix T) (a : AccuracyOrder)
    (eps : T) :
  let gst := finite_gradient_call uninit mem x grad f a eps in
  let hst := finite_hessian uninit (mem x) f hess eps in
  (x ≠ grad → gc_store gst x = mem x ∧ gc_xx gst = mem x) ∧
  (∀ o, o ≠ grad → gc_store gst o = mem o) ∧
  (∀ jst, finite_jacobian uninit ndebug (mem x) fv jac a eps = Ok jst →
          js_x jst = mem x ∧ js_xx jst = mem x) ∧
  (hs_x hst = mem x ∧ hs_xx hst = mem x).
Proof.
  cbv zeta. split_and!.
  - intros Hne. split; [by apply finite_gradient_call_frame|].
    destruct (finite_gradient_call_separate uninit mem x grad f a eps Hne)
      as (_ & _ & _ & Hxx & _).
    rewrite Hxx. apply (finite_gradient_inv uninit (mem x) f (mem grad) a eps).
  - intros o. apply finite_gradient_call_frame.
  - intros jst. apply finite_jacobian_point.
  - apply (finite_hessian_code uninit (mem x) f hess eps).
  - apply (finite_hessian_code uninit (mem x) f hess eps).
Qed.

(** ** The comparators *)

Section ComparatorProofs.
Context {T : Type} `{Arith T}.
Variable ndebug : bool.
Local Abbreviation vec := (list T).
Implicit Types (x y : vec) (X Y : Matrix T) (tol : T) (msg : string).

Lemma check_pair_flag tol msg r c xv yv (st : bool * list (diag T)) :
  (check_pair tol msg r c xv yv st).1 = st.1 && negb (too_far tol xv yv).
Proof.
  unfold check_pair, too_far. destruct (gtb _ _); simpl.
  - by rewrite andb_false_r.
  - by rewrite andb_true_r.
Qed.

Lemma vec_at_ok x d : d < length x → vec_at ndebug x d = Ok (x !!! d).
Proof.
  intros Hd. unfold vec_at.
  by rewrite (list_lookup_lookup_total_lt x d Hd).
Qed.

Lemma mat_at_ok X r c :
  mat_wf X → r < m_rows X → c < m_cols X →
  mat_at ndebug X r c = Ok (mat_get X r c).
Proof.
  intros Hwf Hr Hc. unfold mat_at, mat_get.
  apply Nat.ltb_lt in Hr as Hr', Hc as Hc'. rewrite Hr', Hc'. simpl.
  rewrite andb_false_r.
  rewrite (list_lookup_lookup_total_lt (m_data X) (mat_idx X r c)); [done|].
  by apply mat_idx_lt.
Qed.

(** A loop whose body passes every index of [l] to [check_pair]. *)
Lemma check_loop (body : bool * list (diag T) → nat → outcome (bool * list (diag T)))
    (far : nat → bool) (l : list nat) :
  (∀ st d, d ∈ l → ∃ log, body st d = Ok (st.1 && negb (far d), log)) →
  ∀ st, ∃ log,
    for_each l body st = Ok (st.1 && forallb (fun d => negb (far d)) l, log).
Proof.
  induction l as [|d l IH]; intros Hbody st; simpl.
  - exists st.2. rewrite andb_true_r. by destruct st.
  - destruct (Hbody st d) as [log ->]; [by left|]. simpl.
    destruct (IH (fun st d Hd => Hbody st d (list_elem_of_further _ _ _ Hd))
                (st.1 && negb (far d), log)) as [log' ->].
    exists log'. simpl. by rewrite andb_assoc.
Qed.

Lemma compare_gradient_returns x y tol msg :
  length x = length y →
  returns (compare_gradient ndebug x y tol msg) (vec_within tol x y).
Proof.
  intros Hlen. unfold compare_gradient, cassert.
  rewrite bool_decide_eq_true_2 by done.
  assert (Hass : (if ndebug then Ok () else Ok ()) = Ok ())
    by by destruct ndebug.
  rewrite Hass. simpl.
  set (body := fun st d =>
                 xd ← vec_at ndebug x d;
                 yd ← vec_at ndebug y d;
                 Ok (check_pair tol msg d None xd yd st)).
  set (far := fun d => too_far tol (x !!! d) (y !!! d)).
  assert (Hbody : ∀ st d, d ∈ seq 0 (length x) →
                    ∃ log, body st d = Ok (st.1 && negb (far d), log)).
  { intros st d Hd. apply elem_of_seq in Hd. unfold body.
    rewrite !vec_at_ok by lia. simpl.
    eexists. apply f_equal.
    rewrite (surjective_pairing (check_pair _ _ _ _ _ _ _)).
    by rewrite check_pair_flag. }
  destruct (check_loop body far _ Hbody (true, [])) as [log Hlog].
  exists log. by rewrite Hlog.
Qed.

Lemma compare_jacobian_returns X Y tol msg :
  same_shape X Y →
  returns (compare_jacobian ndebug X Y tol msg) (mat_within tol X Y).
Proof.
  intros (HwX & HwY & Hr & Hc). unfold compare_jacobian, cassert.
  rewrite !bool_decide_eq_true_2 by done.
  assert (Hass : (if ndebug then Ok () else Ok ()) = Ok ())
    by by destruct ndebug.
  rewrite Hass. simpl.
  set (far := fun d c => too_far tol (mat_get X d c) (mat_get Y d c)).
  set (inner := fun d st c =>
                  xv ← mat_at ndebug X d c;
                  yv ← mat_at ndebug Y d c;
                  Ok (check_pair tol msg d (Some c) xv yv st)).
  set (body := fun st d => for_each (seq 0 (m_cols X)) (inner d) st).
  set (rowfar := fun d => negb (forallb (fun c => negb (far d c))
                                        (seq 0 (m_cols X)))).
  assert (Hbody : ∀ st d, d ∈ seq 0 (m_rows X) →
                    ∃ log, body st d = Ok (st.1 && negb (rowfar d), log)).
  { intros st d Hd. apply elem_of_seq in Hd. unfold rowfar, body.
    rewrite negb_involutive.
    apply (check_loop (inner d) (far d)).
    intros st' c Hcc. apply elem_of_seq in Hcc. unfold inner.
    rewrite !mat_at_ok by (done || lia). simpl.
    eexists. apply f_equal.
    rewrite (surjective_pairing (check_pair _ _ _ _ _ _ _)).
    by rewrite check_pair_flag. }
  destruct (check_loop body rowfar _ Hbody (true, [])) as [log Hlog].
  assert (E : mat_within tol X Y
              = (true, @nil (diag T)).1
                && forallb (fun d => negb (rowfar d)) (seq 0 (m_rows X))).
  { clear Hbody Hlog. simpl. unfold mat_within, rowfar.
    induction (seq 0 (m_rows X)) as [|d l IH]; simpl; [done|].
    by rewrite negb_involutive, IH. }
  exists log. rewrite E. exact Hlog.
Qed.

Lemma vec_within_true tol x y :
  length x = length y →
  vec_within tol x y = true ↔
  vec_pairs_all (fun xv yv => too_far tol xv yv = false) x y.
Proof.
  intros Hlen. unfold vec_within, vec_pairs_all.
  rewrite forallb_forall. split.
  - intros Hall d xv yv Hx Hy.
    apply negb_true_iff.
    rewrite <- (list_lookup_total_correct _ _ _ Hx),
            <- (list_lookup_total_correct _ _ _ Hy).
    apply Hall, list_elem_of_In, elem_of_seq.
    apply lookup_lt_Some in Hx. lia.
  - intros Hall d Hd. apply list_elem_of_In, elem_of_seq in Hd.
    apply negb_true_iff, (Hall d); apply list_lookup_lookup_total_lt; lia.
Qed.

Lemma mat_within_true tol X Y :
  mat_within tol X Y = true ↔
  mat_pairs_all (fun xv yv => too_far tol xv yv = false) X Y.
Proof.
  unfold mat_within, mat_pairs_all. rewrite forallb_forall. split.
  - intros Hall r c Hr Hc. apply negb_true_iff.
    specialize (Hall r). rewrite forallb_forall in Hall.
    apply Hall; apply list_elem_of_In, elem_of_seq; lia.
  - intros Hall r Hr. apply list_elem_of_In, elem_of_seq in Hr.
    apply forallb_forall. intros c Hc.
    apply list_elem_of_In, elem_of_seq in Hc.
    apply negb_true_iff, Hall; lia.
Qed.

(** For comparable values [not (a > b)] is [a <= b]. *)
Lemma ordered_pair_close tol xv yv :
  ordered_pair tol xv yv →
  too_far tol xv yv = false ↔ close_enough tol xv yv.
Proof.
  unfold ordered_pair, ordered, too_far, close_enough. intros ->.
  by destruct (leb _ _).
Qed.
End ComparatorProofs.

(** *** Without the assertions *)

Lemma for_each_app {St B : Type} (body : St → B → outcome St)
    (l1 l2 : list B) (s : St) :
  for_each (l1 ++ l2) body s = (s' ← for_each l1 body s; for_each l2 body s').
Proof.
  revert s. induction l1 as [|b l1 IH]; intros s; simpl; [done|].
  destruct (body s b) as [s1| |]; simpl; [apply IH|done..].
Qed.

Section UncheckedProofs.
Context {T : Type} `{Arith T}.
Implicit Types (x y : list T) (tol : T) (msg : string).

(** The first [k] iterations, [k] within both vectors. *)
Lemma compare_gradient_prefix x y tol msg (k : nat) :
  k ≤ length x → k ≤ length y →
  ∃ log,
    for_each (seq 0 k)
      (fun st d =>
         xd ← vec_at true x d;
         yd ← vec_at true y d;
         Ok (check_pair tol msg d None xd yd st))
      (true, [])
    = Ok (forallb (fun d => negb (too_far tol (x !!! d) (y !!! d))) (seq 0 k),
          log).
Proof.
  intros Hx Hy.
  set (body := fun st d =>
                 xd ← vec_at true x d;
                 yd ← vec_at true y d;
                 Ok (check_pair tol msg d None xd yd st)).
  set (far := fun d => too_far tol (x !!! d) (y !!! d)).
  assert (Hbody : ∀ st d, d ∈ seq 0 k →
                    ∃ log, body st d = Ok (st.1 && negb (far d), log)).
  { intros st d Hd. apply elem_of_seq in Hd. unfold body.
    rewrite !vec_at_ok by lia. simpl.
    eexists. apply f_equal.
    rewrite (surjective_pairing (check_pair _ _ _ _ _ _ _)).
    by rewrite check_pair_flag. }
  destruct (check_loop body far _ Hbody (true, [])) as [log Hlog].
  exists log. by rewrite Hlog.
Qed.

(** [y] longer than [x]: its extra elements are never looked at. *)
Lemma compare_gradient_truncates x y tol msg :
  length x ≤ length y →
  returns (compare_gradient true x y tol msg) (vec_within tol x y).
Proof.
  intros Hlen. unfold compare_gradient, cassert. simpl.
  by apply compare_gradient_prefix.
Qed.

(** [y] shorter than [x]: [y[y.rows()]] is read. *)
Lemma compare_gradient_overruns x y tol msg :
  length y < length x → compare_gradient true x y tol msg = Undefined.
Proof.
  intros Hlen. unfold compare_gradient, cassert. simpl.
  replace (length x) with (length y + S (length x - S (length y))) by lia.
  rewrite seq_app, for_each_app.
  destruct (compare_gradient_prefix x y tol msg (length y)) as [log ->];
    [lia|done|].
  simpl. rewrite (vec_at_ok true x (length y)) by lia. simpl.
  unfold vec_at. by rewrite lookup_ge_None_2.
Qed.
End UncheckedProofs.

(** C9: compare_hessian is compare_jacobian: same flag (and same log,
    same failure) on every pair of matrices, tolerance and label. *)
Theorem compare_hessian_delegates {T : Type} `{Arith T} (ndebug : bool)
    (x y : Matrix T) (tolerance : T) (label : string) :
  compare_hessian ndebug x y tolerance label
  = compare_jacobian ndebug x y tolerance label.
Proof. reflexivity. Qed.

(** ** Exact arithmetic *)

Lemma insert_as_alter {A : Type} `{!Inhabited A} (g : A → A) (j : nat)
    (l : list A) :
  <[j := g (l !!! j)]> l = alter g j l.
Proof.
  apply list_eq. intros k. destruct (decide (j = k)) as [->|Hne].
  - rewrite list_lookup_alter_eq. destruct (l !! k) as [v|] eqn:E.
    + rewrite list_lookup_insert_eq by (by eapply lookup_lt_Some).
      simpl. by rewrite (list_lookup_total_correct _ _ _ E).
    + rewrite list_insert_ge by (by apply lookup_ge_None_1). by rewrite E.
  - by rewrite list_lookup_insert_ne, list_lookup_alter_ne.
Qed.

Section ExactProofs.
Import Exact.
Variable uninit : nat → R.
Implicit Types (x : list R) (f : list R → R) (eps : R).

Lemma perturbed_alter x i (h : R) :
  perturbed x i h = alter (fun v => (v + h)%R) i x.
Proof. apply (insert_as_alter (fun v => (v + h)%R)). Qed.

Lemma alter_add_sub x i eps :
  alter (fun v => (v - eps)%R) i (alter (fun v => (v + eps)%R) i x) = x.
Proof.
  rewrite list_alter_alter_eq. apply list_alter_id. intros v. simpl. lra.
Qed.

Lemma hess_point1_exact x eps i j :
  hess_point1 x eps i j = perturbed (perturbed x i eps) j eps.
Proof. reflexivity. Qed.

Lemma hess_point2_exact x eps i j :
  hess_point2 x eps i j = perturbed x i eps.
Proof.
  unfold hess_point2, hess_point1. cbv zeta.
  change (@sub R real_arith) with Rminus.
  change (@add R real_arith) with Rplus.
  rewrite (insert_as_alter (fun v => (v - eps)%R)).
  rewrite (insert_as_alter (fun v => (v + eps)%R) j).
  rewrite alter_add_sub. reflexivity.
Qed.

Lemma hess_point3_exact x eps i j :
  hess_point3 x eps i j = perturbed x j eps.
Proof.
  unfold hess_point3. cbv zeta. rewrite hess_point2_exact.
  change (@sub R real_arith) with Rminus.
  change (@add R real_arith) with Rplus.
  rewrite (insert_as_alter (fun v => (v - eps)%R)).
  rewrite (insert_as_alter (fun v => (v + eps)%R) j).
  rewrite !perturbed_alter.
  destruct (decide (i = j)) as [->|Hne].
  - by rewrite alter_add_sub.
  - rewrite (list_alter_alter_ne _ _ _ j i) by done.
    by rewrite alter_add_sub.
Qed.

Lemma hessian_entry_exact x f eps i j :
  hessian_entry_code x f eps i j = mixed_difference x f eps i j.
Proof.
  unfold hessian_entry_code, mixed_difference.
  by rewrite hess_point1_exact, hess_point2_exact, hess_point3_exact.
Qed.

Lemma hess_points_exact x eps i j :
  hess_points_code x eps i j = mixed_difference_points x eps i j.
Proof.
  unfold hess_points_code, mixed_difference_points.
  by rewrite hess_point1_exact, hess_point2_exact, hess_point3_exact.
Qed.

Lemma perturbed_swap x eps i j :
  perturbed (perturbed x i eps) j eps = perturbed (perturbed x j eps) i eps.
Proof.
  rewrite !perturbed_alter. destruct (decide (i = j)) as [->|Hne]; [done|].
  by apply list_alter_alter_ne.
Qed.

Lemma mixed_difference_sym x f eps i j :
  mixed_difference x f eps i j = mixed_difference x f eps j i.
Proof.
  unfold mixed_difference. rewrite (perturbed_swap x eps i j). simpl.
  f_equal. lra.
Qed.
End ExactProofs.

(** C2 (amended): in any arithmetic finite_hessian returns an n-by-n matrix
    whose entry [(i, j)], also for [i = j], is
    [(f1 - f2 - f3 + f(x)) / (eps * eps)] with [f1], [f2], [f3] the values
    of [f] at the three points the code reaches by adding [eps] to and
    subtracting it from [xx[i]] and [xx[j]]; these and [f(x)] are the only
    evaluations, four per pair and [4 * n * n] in all, and no accuracy
    order is involved.  In exact arithmetic the three points are
    [x + eps ei + eps ej], [x + eps ei] and [x + eps ej], and the entry is
    the mixed second difference. *)
Theorem finite_hessian_formula :
  (∀ (T : Type) (A : Arith T) (uninit : nat → T) (x : list T)
     (f : list T → T) (hess : Matrix T) (eps : T),
     let st := finite_hessian uninit x f hess eps in
     let n := length x in
     m_rows (hs_hess st) = n ∧ m_cols (hs_hess st) = n ∧
     (∀ i j, i < n → j < n →
        mat_get (hs_hess st) i j = hessian_entry_code x f eps i j) ∧
     hs_evals st =
       concat ((fun i => concat (hess_points_code x eps i <$> seq 0 n))
                 <$> seq 0 n) ∧
     length (hs_evals st) = 4 * n * n) ∧
  (∀ (uninit : nat → R) (x : list R) (f : list R → R) (hess : Matrix R)
     (eps : R),
     let st := finite_hessian uninit x f hess eps in
     let n := length x in
     (∀ i j, i < n → j < n →
        mat_get (hs_hess st) i j =
        ((f (perturbed (perturbed x i eps) j eps) - f (perturbed x i eps)
          - f (perturbed x j eps) + f x) / (eps * eps))%R) ∧
     hs_evals st =
       concat ((fun i =>
                  concat ((fun j => [x; perturbed (perturbed x i eps) j eps;
                                     perturbed x i eps; perturbed x j eps])
                            <$> seq 0 n))
                 <$> seq 0 n)).
Proof.
  split.
  - intros T A uninit x f hess eps.
    destruct (finite_hessian_code uninit x f hess eps)
      as (Hr & Hc & _ & Hent & Hev & Hlen & _).
    cbv zeta. by split_and!.
  - intros uninit x f hess eps.
    destruct (finite_hessian_code uninit x f hess eps)
      as (_ & _ & _ & Hent & Hev & _).
    cbv zeta. split.
    + intros i j Hi Hj. rewrite Hent by done. apply hessian_entry_exact.
    + rewrite Hev. f_equal. apply list_fmap_ext. intros _ i _. f_equal.
      apply list_fmap_ext. intros _ j _. apply hess_points_exact.
Qed.

(** C10: in exact arithmetic the matrix finite_hessian returns is
    symmetric: entry [(i, j)] equals entry [(j, i)] for every pair. *)
Theorem finite_hessian_symmetric (uninit : nat → R) (x : list R)
    (f : list R → R) (hess : Matrix R) (eps : R) (i j : nat) :
  i < length x → j < length x →
  let h := hs_hess (finite_hessian uninit x f hess eps) in
  mat_get h i j = mat_get h j i.
Proof.
  intros Hi Hj.
  destruct (finite_hessian_code uninit x f hess eps)
    as (_ & _ & _ & Hent & _).
  cbv zeta. rewrite !Hent by done. rewrite !hessian_entry_exact.
  apply mixed_difference_sym.
Qed.

(** ** The stencil tables *)






(** ** The comparators in exact arithmetic *)

Section ExactComparator.
Import Exact.
Implicit Types (tol xv yv : R).

Lemma real_ordered (a b : R) : ordered a b.
Proof.
  unfold ordered, gtb. simpl.
  destruct (Rlt_dec b a), (Rle_dec a b); simpl; (done || lra).
Qed.

Lemma real_fmax (a b : R) : fmax a b = Rmax a b.
Proof.
  unfold fmax, Rmax. simpl.
  destruct (Rlt_dec a b), (Rle_dec a b); (done || lra).
Qed.

Lemma real_scale xv yv :
  scale_of xv yv = Rmax (Rmax (Rabs xv) (Rabs yv)) 1.
Proof. unfold scale_of. by rewrite !real_fmax. Qed.

Lemma real_close_enough tol xv yv :
  close_enough tol xv yv ↔
  (Rabs (xv - yv) <= tol * Rmax (Rmax (Rabs xv) (Rabs yv)) 1)%R.
Proof.
  unfold close_enough. rewrite real_scale. simpl.
  destruct (Rle_dec _ _); split; (done || lra).
Qed.

Lemma real_self_close tol v : (0 <= tol)%R → too_far tol v v = false.
Proof.
  intros Htol. unfold too_far, gtb. rewrite real_scale. simpl.
  destruct (Rlt_dec _ _) as [Hlt|]; [|done]. exfalso.
  replace (v - v)%R with 0%R in Hlt by lra. rewrite Rabs_R0 in Hlt.
  pose proof (Rmax_r (Rmax (Rabs v) (Rabs v)) 1). nra.
Qed.
End ExactComparator.

(** ** The comparators in double arithmetic *)

Section DoubleComparator.
Import Double.
Import SpecFloat.

Lemma SFcompare_swap (a b : spec_float) :
  SFcompare b a = option_map CompOpp (SFcompare a b).
Proof.
  destruct a as [sa|sa| |sa ma ea], b as [sb|sb| |sb mb eb];
    simpl; try done; try (by destruct sa); try (by destruct sb);
    try (by destruct sa, sb).
  destruct sa, sb; simpl; try done; f_equal.
  - rewrite (Z.compare_antisym ea eb).
    destruct (ea ?= eb)%Z eqn:E; simpl; try done.
    rewrite (Pos.compare_cont_antisym mb ma Eq). simpl.
    by rewrite CompOpp_involutive.
  - rewrite (Z.compare_antisym ea eb).
    destruct (ea ?= eb)%Z eqn:E; simpl; try done.
    by rewrite (Pos.compare_cont_antisym ma mb Eq).
Qed.

Lemma not_nan_spec (a : float) :
  PrimFloat.is_nan a = false → FloatOps.Prim2SF a ≠ S754_nan.
Proof.
  unfold PrimFloat.is_nan. rewrite FloatAxioms.eqb_spec. unfold SFeqb.
  intros Hself E. rewrite E in Hself. done.
Qed.

(** Two doubles neither of which is NaN are comparable. *)
Lemma double_ordered (a b : float) :
  PrimFloat.is_nan a = false → PrimFloat.is_nan b = false → ordered a b.
Proof.
  intros Ha%not_nan_spec Hb%not_nan_spec. unfold ordered, gtb. simpl.
  rewrite FloatAxioms.ltb_spec, FloatAxioms.leb_spec. unfold SFltb, SFleb.
  rewrite (SFcompare_swap (FloatOps.Prim2SF a) (FloatOps.Prim2SF b)).
  destruct (SFcompare (FloatOps.Prim2SF a) (FloatOps.Prim2SF b))
    as [[]|] eqn:E; try done.
  exfalso.
  destruct (FloatOps.Prim2SF a), (FloatOps.Prim2SF b); simpl in E; try done.
Qed.

Lemma SFltb_not_negative (p : spec_float) :
  not_negative p → SFltb p (S754_zero false) = false.
Proof. destruct p as [[]|[]| |[] ? ?]; simpl; done. Qed.

Lemma SFltb_nan_r (p : spec_float) : SFltb p S754_nan = false.
Proof. by destruct p. Qed.

Lemma binary_round_aux_not_negative (m e : Z) (l : location) :
  not_negative
    (binary_round_aux FloatOps.prec FloatOps.emax false m e l).
Proof.
  unfold binary_round_aux.
  destruct (shr_fexp _ _ _ _ _) as [mrs e1].
  destruct (shr_fexp _ _ _ _ _) as [mrs' e2].
  destruct (shr_m mrs'); simpl; try done.
  by destruct (Z.leb _ _).
Qed.

(** A tolerance that is [>= 0] times a scale with a clear sign bit is
    not negative. *)
Lemma SFmul_not_negative (t sc : spec_float) :
  SFleb (S754_zero false) t = true → sign_clear sc →
  not_negative (SFmul FloatOps.prec FloatOps.emax t sc).
Proof.
  destruct t as [st|[]| |[] mt et], sc as [[]|[]| |[] ms es];
    simpl; try done.
  intros _ _. apply binary_round_aux_not_negative.
Qed.

Lemma SFabs_sign_clear (v : spec_float) : sign_clear (SFabs v).
Proof. by destruct v. Qed.

(** [|v - v|] is [+0], or NaN when [v] is not finite. *)
Lemma SFsub_self (v : spec_float) :
  SFabs (SFsub FloatOps.prec FloatOps.emax v v) = S754_zero false ∨
  SFabs (SFsub FloatOps.prec FloatOps.emax v v) = S754_nan.
Proof.
  destruct v as [[]|[]| |s m e]; simpl; auto.
  rewrite Z.sub_diag. simpl. auto.
Qed.

Lemma double_scale_sign (v : float) :
  sign_clear (FloatOps.Prim2SF (scale_of v v)).
Proof.
  unfold scale_of, fmax. simpl.
  destruct (PrimFloat.ltb (PrimFloat.abs v) (PrimFloat.abs v)),
           (PrimFloat.ltb (PrimFloat.abs v) _);
    try (rewrite FloatAxioms.abs_spec; apply SFabs_sign_clear);
    vm_compute; done.
Qed.

(** A double is as close to itself as any tolerance [>= 0] asks. *)
Lemma double_self_close (tol v : float) :
  PrimFloat.leb PrimFloat.zero tol = true → too_far tol v v = false.
Proof.
  rewrite FloatAxioms.leb_spec. intros Htol.
  unfold too_far, gtb.
  change (@ltb float double_arith) with PrimFloat.ltb.
  change (@abs float double_arith) with PrimFloat.abs.
  change (@sub float double_arith) with PrimFloat.sub.
  change (@mul float double_arith) with PrimFloat.mul.
  rewrite FloatAxioms.ltb_spec, FloatAxioms.abs_spec, FloatAxioms.sub_spec,
    FloatAxioms.mul_spec.
  unfold FloatAxioms.SF64sub, FloatAxioms.SF64mul.
  destruct (SFsub_self (FloatOps.Prim2SF v)) as [-> | ->].
  - apply SFltb_not_negative, SFmul_not_negative;
      [exact Htol|apply double_scale_sign].
  - apply SFltb_nan_r.
Qed.

Lemma SFcompare_refl (a : spec_float) :
  a ≠ S754_nan → SFcompare a a = Some Eq.
Proof.
  destruct a as [[]|[]| |[] m e]; simpl; try done; intros _;
    rewrite Z.compare_refl, Pos.compare_cont_refl; done.
Qed.

Lemma is_nan_spec (a : float) :
  PrimFloat.is_nan a = true → FloatOps.Prim2SF a = S754_nan.
Proof.
  unfold PrimFloat.is_nan. rewrite FloatAxioms.eqb_spec. unfold SFeqb.
  intros Hself. destruct (FloatOps.Prim2SF a) as [s|s| |s m e] eqn:E;
    [| |done|]; by rewrite SFcompare_refl in Hself.
Qed.

(** A comparison with NaN on either side is false: the pair counts as
    close. *)
Lemma double_nan_not_far (tol xv yv : float) :
  PrimFloat.is_nan (abs (sub xv yv)) = true ∨
  PrimFloat.is_nan (mul tol (scale_of xv yv)) = true →
  too_far tol xv yv = false.
Proof.
  unfold too_far, gtb.
  change (@ltb float double_arith) with PrimFloat.ltb.
  rewrite FloatAxioms.ltb_spec. unfold SFltb.
  intros [Hn%is_nan_spec|Hn%is_nan_spec]; rewrite Hn.
  - apply SFltb_nan_r.
  - done.
Qed.
End DoubleComparator.

Section ContractProofs.
Context {T : Type} `{Arith T}.
Variable ndebug : bool.

Lemma compare_gradient_contract (x y : list T) (tol : T) (msg : string) :
  length x = length y →
  ∃ b, returns (compare_gradient ndebug x y tol msg) b ∧
       (b = true ↔
        vec_pairs_all (fun xv yv => too_far tol xv yv = false) x y) ∧
       (vec_pairs_all (ordered_pair tol) x y →
        (b = true ↔ vec_pairs_all (close_enough tol) x y)).
Proof.
  intros Hlen. exists (vec_within tol x y). split_and!.
  - by apply compare_gradient_returns.
  - by apply vec_within_true.
  - intros Hord. rewrite vec_within_true by done.
    split; intros Hall d xv yv Hx Hy;
      apply (ordered_pair_close tol xv yv); eauto.
Qed.

Lemma compare_jacobian_contract (x y : Matrix T) (tol : T) (msg : string) :
  same_shape x y →
  ∃ b, returns (compare_jacobian ndebug x y tol msg) b ∧
       (b = true ↔
        mat_pairs_all (fun xv yv => too_far tol xv yv = false) x y) ∧
       (mat_pairs_all (ordered_pair tol) x y →
        (b = true ↔ mat_pairs_all (close_enough tol) x y)).
Proof.
  intros Hshape. exists (mat_within tol x y). split_and!.
  - by apply compare_jacobian_returns.
  - by apply mat_within_true.
  - intros Hord. rewrite mat_within_true.
    split; intros Hall r c Hr Hc;
      apply (ordered_pair_close tol (mat_get x r c) (mat_get y r c)); eauto.
Qed.

Lemma compare_gradient_self (v : list T) (tol : T) (msg : string) :
  (∀ a, too_far tol a a = false) →
  returns (compare_gradient ndebug v v tol msg) true.
Proof.
  intros Hself.
  assert (E : vec_within tol v v = true).
  { apply vec_within_true; [done|]. intros d xv yv Hx Hy.
    rewrite Hx in Hy. injection Hy as <-. apply Hself. }
  rewrite <- E. by apply compare_gradient_returns.
Qed.
End ContractProofs.

(** C4 (amended): for equal-shaped [x] and [y] and every tolerance,
    compare_gradient (compare_jacobian for matrices) returns true if and
    only if no pair of corresponding elements has
    [|xi - yi| > tol * max(max(|xi|, |yi|), 1.0)].  Where the two sides of
    that comparison are comparable this says that every pair satisfies
    [|xi - yi| <= tol * max(|xi|, |yi|, 1.0)]: so it is for all reals, and
    for doubles when neither side is NaN, whereas a pair with a NaN side
    is never counted as a mismatch.  compare_gradient(v, v, tol, _) is
    true for every [v] and every [tol >= 0], in exact and in double
    arithmetic. *)
Theorem comparator_contract :
  (∀ (T : Type) (A : Arith T) (ndebug : bool) (tol : T) (msg : string),
     (∀ x y : list T, length x = length y →
        ∃ b, returns (compare_gradient ndebug x y tol msg) b ∧
             (b = true ↔
              vec_pairs_all (fun xv yv => too_far tol xv yv = false) x y) ∧
             (vec_pairs_all (ordered_pair tol) x y →
              (b = true ↔ vec_pairs_all (close_enough tol) x y))) ∧
     (∀ x y : Matrix T, same_shape x y →
        ∃ b, returns (compare_jacobian ndebug x y tol msg) b ∧
             (b = true ↔
              mat_pairs_all (fun xv yv => too_far tol xv yv = false) x y) ∧
             (mat_pairs_all (ordered_pair tol) x y →
              (b = true ↔ mat_pairs_all (close_enough tol) x y)))) ∧
  (∀ tol xv yv : R,
     ordered_pair tol xv yv ∧
     (close_enough tol xv yv ↔
      (Rabs (xv - yv) <= tol * Rmax (Rmax (Rabs xv) (Rabs yv)) 1)%R)) ∧
  (∀ (ndebug : bool) (v : list R) (tol : R) (msg : string),
     (0 <= tol)%R → returns (compare_gradient ndebug v v tol msg) true) ∧
  (∀ tol xv yv : float,
     (PrimFloat.is_nan (abs (sub xv yv)) = false →
      PrimFloat.is_nan (mul tol (scale_of xv yv)) = false →
      ordered_pair tol xv yv) ∧
     (PrimFloat.is_nan (abs (sub xv yv)) = true ∨
      PrimFloat.is_nan (mul tol (scale_of xv yv)) = true →
      too_far tol xv yv = false)) ∧
  (∀ (ndebug : bool) (v : list float) (tol : float) (msg : string),
     PrimFloat.leb PrimFloat.zero tol = true →
     returns (compare_gradient ndebug v v tol msg) true).
Proof.
  split_and!.
  - intros T A ndebug tol msg. split.
    + intros x y. apply compare_gradient_contract.
    + intros x y. apply compare_jacobian_contract.
  - intros tol xv yv. split; [apply real_ordered|apply real_close_enough].
  - intros ndebug v tol msg Htol. apply compare_gradient_self.
    intros a. by apply real_self_close.
  - intros tol xv yv. split; [apply double_ordered|apply double_nan_not_far].
  - intros ndebug v tol msg Htol. apply compare_gradient_self.
    intros a. by apply double_self_close.
Qed.

(** C5 (amended): in a build with assertions enabled, comparing
    containers of different shapes ends in the failed [assert], before any
    element is read.  With [NDEBUG] the shapes are not checked:
    compare_gradient runs over the length of [x], ignoring the extra
    elements of a longer [y] and reading outside a shorter one. *)
Theorem shape_mismatch_aborts {T : Type} `{Arith T} (x y : list T)
    (X Y : Matrix T) (tol : T) (msg : string) :
  (length x ≠ length y → compare_gradient false x y tol msg = Aborted) ∧
  (m_rows X ≠ m_rows Y ∨ m_cols X ≠ m_cols Y →
   compare_jacobian false X Y tol msg = Aborted ∧
   compare_hessian false X Y tol msg = Aborted) ∧
  (length x < length y →
   returns (compare_gradient true x y tol msg) (vec_within tol x y)) ∧
  (length y < length x → compare_gradient true x y tol msg = Undefined).
Proof.
  split_and!.
  - intros Hne. unfold compare_gradient, cassert.
    by rewrite bool_decide_eq_false_2.
  - intros Hne. unfold compare_hessian, compare_jacobian, cassert.
    destruct (decide (m_rows X = m_rows Y)) as [Er|Er].
    + rewrite (bool_decide_eq_true_2 _ Er). simpl.
      rewrite bool_decide_eq_false_2; [done|]. tauto.
    + by rewrite (bool_decide_eq_false_2 _ Er).
  - intros Hlt. apply compare_gradient_truncates. lia.
  - apply compare_gradient_overruns.
Qed.

(** ** The theorems on sample inputs, and the limits of the documentation *)

(** The Jacobian of [(x0 + x1, x0 * x1)] at [(1, 2)], fourth order: the
    call returns a 2-by-2 matrix after 9 evaluations. *)
Lemma finite_jacobian_formula_witness :
  ∃ st, finite_jacobian Double.junk false Double.d_x0 Double.d_sum_and_product
          Double.d_empty Order4 0.5%float = Ok st ∧
        m_rows (js_jac st) = 2 ∧ m_cols (js_jac st) = 2 ∧
        length (js_evals st) = 2 * (2 * (1 + 1)) + 1.
Proof.
  destruct (finite_jacobian_formula Double.junk false Double.d_x0
              Double.d_sum_and_product Double.d_empty Order4 0.5%float 2)
    as (st & Hst & Hr & Hc & _ & _ & Hlen & _).
  - intros v. reflexivity.
  - exists st. repeat split; assumption.
Defined.

(** The gradient of [x0 * x1] at [v = (1, 2)], second order, step [1/2],
    written to an object of its own: [(2, 1)]. *)
Lemma finite_gradient_formula_witness :
  gc_store (finite_gradient_call Double.junk Samples.d_objects 0 1
              Double.d_product Order2 0.5%float) 1
  = [2%float; 1%float].
Proof.
  pose proof (finite_gradient_formula Double.junk Samples.d_objects 0 1
                Double.d_product Order2 0.5%float) as Hf.
  cbv zeta in Hf. destruct Hf as [_ Hf]; [lia|].
  rewrite Hf. vm_compute. reflexivity.
Defined.

(** The same call: 4 evaluations, each at a point that differs from
    [(1, 2)] in at most one coordinate. *)
Lemma finite_gradient_evaluations_witness :
  length (gc_evals (finite_gradient_call Double.junk Samples.d_objects 0 1
                      Double.d_product Order2 0.5%float)) = 4 ∧
  Forall (differs_in_at_most_one (Samples.d_objects 0))
    (gc_evals (finite_gradient_call Double.junk Samples.d_objects 0 1
                 Double.d_product Order2 0.5%float)).
Proof.
  pose proof (finite_gradient_evaluations Double.junk Samples.d_objects 0 1
                Double.d_product Order2 0.5%float) as He.
  cbv zeta in He. destruct He as [Hn Hd].
  split; [exact Hn|]. apply Hd. lia.
Defined.

(** The same function, second order: the call returns with [x] and [xx]
    equal to [(1, 2)]; so does finite_gradient when [grad] is another
    object than [x]. *)
Lemma point_unchanged_witness :
  (gc_store (finite_gradient_call Double.junk Samples.d_objects 0 1
               Double.d_product Order2 0.5%float) 0 = Samples.d_objects 0 ∧
   gc_xx (finite_gradient_call Double.junk Samples.d_objects 0 1
            Double.d_product Order2 0.5%float) = Samples.d_objects 0) ∧
  ∃ jst, finite_jacobian Double.junk false Double.d_x0 Double.d_sum_and_product
           Double.d_empty Order2 0.5%float = Ok jst ∧
         js_x jst = Double.d_x0 ∧ js_xx jst = Double.d_x0.
Proof.
  pose proof (point_unchanged Double.junk false Samples.d_objects 0 1
                Double.d_product Double.d_sum_and_product Double.d_empty
                Double.d_empty Order2 0.5%float) as Hp.
  cbv zeta in Hp. destruct Hp as (Hg & _ & Hj & _).
  split.
  - apply Hg. lia.
  - eexists. split; [vm_compute; reflexivity|].
    apply Hj. vm_compute. reflexivity.
Defined.

(** The Hessian of [x0 * x1] at [(1, 2)] over the reals, step 1:
    entries [(0, 1)] and [(1, 0)] agree. *)
Lemma finite_hessian_symmetric_witness :
  mat_get (hs_hess (finite_hessian Exact.r_zeros Exact.r_x0 Exact.r_product
                      Exact.r_empty 1%R)) 0 1
  = mat_get (hs_hess (finite_hessian Exact.r_zeros Exact.r_x0 Exact.r_product
                        Exact.r_empty 1%R)) 1 0.
Proof.
  apply (finite_hessian_symmetric Exact.r_zeros Exact.r_x0 Exact.r_product
           Exact.r_empty 1%R 0 1); simpl; lia.
Defined.

(** The same Hessian: entry [(0, 1)] is the mixed second difference. *)
Lemma finite_hessian_formula_witness :
  mat_get (hs_hess (finite_hessian Exact.r_zeros Exact.r_x0 Exact.r_product
                      Exact.r_empty 1%R)) 0 1
  = ((Exact.r_product (perturbed (perturbed Exact.r_x0 0 1%R) 1 1%R)
      - Exact.r_product (perturbed Exact.r_x0 0 1%R)
      - Exact.r_product (perturbed Exact.r_x0 1 1%R)
      + Exact.r_product Exact.r_x0) / (1 * 1))%R.
Proof.
  apply (proj1 (proj2 finite_hessian_formula Exact.r_zeros Exact.r_x0
                  Exact.r_product Exact.r_empty 1%R)); simpl; lia.
Defined.


(** Two 2-vectors of doubles, tolerance [1/2]. *)
Lemma comparator_contract_witness :
  ∃ b, returns (compare_gradient false [1%float; 2%float]
                  [1%float; 3.5%float] 0.5%float "g"%string) b ∧
       (b = true ↔
        vec_pairs_all (fun xv yv => too_far 0.5%float xv yv = false)
          [1%float; 2%float] [1%float; 3.5%float]).
Proof.
  destruct (proj1 (proj1 comparator_contract float Double.double_arith false
                     0.5%float "g"%string)
              [1%float; 2%float] [1%float; 3.5%float])
    as (b & Hret & Hiff & _).
  - reflexivity.
  - exists b. split; assumption.
Defined.

(** A 3-vector against a 4-vector, assertions enabled. *)
Lemma shape_mismatch_aborts_witness :
  compare_gradient false [1%float; 2%float; 3%float]
    [1%float; 2%float; 3%float; 4%float] 0.5%float "g"%string = Aborted.
Proof.
  apply (proj1 (shape_mismatch_aborts [1%float; 2%float; 3%float]
                  [1%float; 2%float; 3%float; 4%float] Double.d_empty
                  Double.d_empty 0.5%float "g"%string)).
  simpl. lia.
Defined.

(** C1, as first stated, fails when [grad] is the object [x].  In
    [finite_gradient(v, f, v, SECOND, 0.5)] with [v = (1, 2)] and
    [f(v) = v[0] * v[1]], [grad[d] = 0] and [grad[d] += ...] write [x[d]],
    and [xx[d] = x[d]] copies the partial sum into [xx]: the call leaves
    [(-2, -16)] where the formula gives [(2, 1)]. *)
Lemma finite_gradient_aliased :
  gc_store (finite_gradient_call Double.junk Samples.d_objects 0 0
              Double.d_product Order2 0.5%float) 0
  = [(-2)%float; (-16)%float] ∧
  (fun d =>
     div (stencil_sum Order2
            (fun s => Double.d_product
                        (<[d := add (Samples.d_objects 0 !!! d)
                                    (mul (c2 Order2 s) 0.5%float)]>
                           (Samples.d_objects 0))))
         (mul (of_Z (dd !!! acc_index Order2)) 0.5%float))
  <$> seq 0 (length (Samples.d_objects 0))
  = [2%float; 1%float].
Proof. vm_compute. split; reflexivity. Qed.

(** C6, as first stated, fails on the same call: the third argument of
    [f] is [(-2, 2.5)], which differs from [x = (1, 2)] in both
    coordinates. *)
Lemma finite_gradient_aliased_calls :
  gc_evals (finite_gradient_call Double.junk Samples.d_objects 0 0
              Double.d_product Order2 0.5%float)
  = [[1.5%float; 2%float]; [2.5%float; 2%float]; [(-2)%float; 2.5%float];
     [(-2)%float; (-5.5)%float]] ∧
  ¬ differs_in_at_most_one (Samples.d_objects 0) [(-2)%float; 2.5%float].
Proof.
  split; [vm_compute; reflexivity|].
  intros [_ [d Hd]]. destruct d as [|d].
  - specialize (Hd 1 ltac:(lia)).
    apply (f_equal (fun o => FloatOps.Prim2SF (default 0%float o))) in Hd.
    vm_compute in Hd. discriminate.
  - specialize (Hd 0 ltac:(lia)).
    apply (f_equal (fun o => FloatOps.Prim2SF (default 0%float o))) in Hd.
    vm_compute in Hd. discriminate.
Qed.

(** C8, as first stated, fails on the same call: the caller's
    [v = (1, 2)] is [(-2, -16)] when finite_gradient returns. *)
Lemma finite_gradient_aliased_point :
  Samples.d_objects 0 = [1%float; 2%float] ∧
  gc_store (finite_gradient_call Double.junk Samples.d_objects 0 0
              Double.d_product Order2 0.5%float) 0
  = [(-2)%float; (-16)%float] ∧
  gc_store (finite_gradient_call Double.junk Samples.d_objects 0 0
              Double.d_product Order2 0.5%float) 0
  ≠ Samples.d_objects 0.
Proof.
  split; [reflexivity|]. split; [vm_compute; reflexivity|].
  intros E. apply (f_equal (fun v => FloatOps.Prim2SF (v !!! 0))) in E.
  vm_compute in E. discriminate.
Qed.

(** C2, as first stated, fails in double arithmetic.  With [x = (0, 1)],
    [eps = 2^-53] and [f(v) = v[1]]: [1 + eps] rounds to [1], so after
    [xx[1] += eps; xx[1] -= eps] the coordinate is [1 - 2^-53], not [1];
    the code stores [2^53] in [hess(0, 1)] where the mixed second
    difference of the documentation is [0]. *)
Lemma finite_hessian_rounding :
  mat_get (hs_hess (finite_hessian Double.junk [0%float; 1%float]
                      Double.d_second Double.d_empty 0x1p-53%float)) 0 1
  = 0x1p53%float ∧
  mixed_difference [0%float; 1%float] Double.d_second 0x1p-53%float 0 1
  = 0%float ∧
  hess_point2 [0%float; 1%float] 0x1p-53%float 0 1
  = [0x1p-53%float; 0x1.fffffffffffffp-1%float] ∧
  perturbed [0%float; 1%float] 0 0x1p-53%float = [0x1p-53%float; 1%float].
Proof. vm_compute. repeat split; reflexivity. Qed.

(** C4, as first stated, fails on NaN: the pair [(NaN, 1)] does not
    satisfy [|xi - yi| <= tol * max(|xi|, |yi|, 1.0)], yet the comparator
    returns true. *)
Lemma compare_gradient_nan :
  compare_gradient false [PrimFloat.nan] [1%float] 0.5%float "g"%string
  = Ok (true, []) ∧
  leb (abs (sub PrimFloat.nan 1%float))
      (mul 0.5%float (scale_of PrimFloat.nan 1%float)) = false.
Proof. vm_compute. split; reflexivity. Qed.

(** C5, as first stated, fails when [NDEBUG] is defined: a 3-vector
    compared with a 4-vector yields true, the fourth element of [y] being
    ignored, and a 4-vector compared with a 3-vector reads [y[3]] outside
    [y]. *)
Lemma compare_gradient_unchecked :
  compare_gradient true [1%float; 2%float; 3%float]
    [1%float; 2%float; 3%float; 4%float] 0.5%float "g"%string = Ok (true, []) ∧
  compare_gradient true [1%float; 2%float; 3%float; 4%float]
    [1%float; 2%float; 3%float] 0.5%float "g"%string = Undefined.
Proof. vm_compute. split; reflexivity. Qed.


(** In double arithmetic a step far below the spacing of the doubles
    around [x[d]] is absorbed, and finite_gradient calls [f] at [x]
    itself although [eps] is not zero. *)
Example double_step_absorbed :
  gs_evals (finite_gradient Double.junk [1%float] (fun v => v !!! 0) []
              Order2 0x1p-60%float)
  = [[1%float]; [1%float]].
Proof. vm_compute. reflexivity. Qed.

(** The gradient of [x0 * x1] at [(1, 2)], step [1/2], second order. *)
Example gradient_of_product :
  gs_grad (finite_gradient Double.junk Double.d_x0 Double.d_product [] Order2
             0.5%float)
  = [2%float; 1%float].
Proof. vm_compute. reflexivity. Qed.

(** The Hessian of [x0 * x1] at [(1, 2)], step [1/2]. *)
Example hessian_of_product :
  hs_hess (finite_hessian Double.junk Double.d_x0 Double.d_product Double.d_empty
             0.5%float)
  = {| m_rows := 2; m_cols := 2;
       m_data := [0%float; 1%float; 1%float; 0%float] |}.
Proof. vm_compute. reflexivity. Qed.

(** With the default step [1e-8] the same drift shows at an ordinary
    point: the Hessian of the linear [f(v) = v[1]] at [(1, 1)] has the
    off-diagonal entry [2^-53 / eps^2], above 1, where the mixed second
    difference of exact arithmetic is 0. *)
Example hessian_default_step :
  PrimFloat.ltb 1%float
    (mat_get (hs_hess (finite_hessian Double.junk [1%float; 1%float]
                         Double.d_second Double.d_empty
                         0x1.5798ee2308c3ap-27%float)) 0 1)
  = true.
Proof. vm_compute. reflexivity. Qed.

(** * Further properties *)

(** ** The Jacobian and the gradient *)

(** X1: Row [r] of the matrix finite_jacobian returns is what
    finite_gradient, called with a [grad] that is not the object [x],
    leaves in [grad] for component [r] of [f], coefficient for
    coefficient, in any arithmetic that performs the operations of the
    source one by one. *)
Theorem jacobian_rows_are_gradients {T : Type} `{Arith T} (uninit : nat → T)
    (ndebug : bool) (mem : store T) (x grad : obj) (fv : list T → list T)
    (jac : Matrix T) (a : AccuracyOrder) (eps : T) (m : nat) :
  x ≠ grad →
  (∀ v, length (fv v) = m) →
  ∃ st, finite_jacobian uninit ndebug (mem x) fv jac a eps = Ok st ∧
    ∀ r d, r < m → d < length (mem x) →
      gc_store (finite_gradient_call uninit mem x grad
                  (fun v => fv v !!! r) a eps) grad !! d
      = Some (mat_get (js_jac st) r d).
Proof.
  intros Hne Hf.
  destruct (finite_jacobian_ok uninit ndebug (mem x) fv jac a eps)
    as (st & Hst & (_ & _ & _ & _ & _ & Hent & _)).
  { intros v. by rewrite !Hf. }
  exists st. split; [done|]. intros r d Hr Hd.
  destruct (finite_gradient_call_separate uninit mem x grad
              (fun v => fv v !!! r) a eps Hne) as (_ & Hg & _).
  destruct (finite_gradient_inv uninit (mem x) (fun v => fv v !!! r)
              (mem grad) a eps) as (_ & _ & Hlen & Hpre & _).
  rewrite Hg. rewrite <- Hlen, firstn_all in Hpre. rewrite Hpre, Hlen.
  rewrite list_lookup_fmap, lookup_seq_lt by done. simpl.
  rewrite Hent by (rewrite ?Hf; lia). done.
Qed.

(** X2: finite_jacobian calls [f] at [x] and then at exactly the points,
    in exactly the order, at which finite_gradient, called with a [grad]
    that is not the object [x], calls its function: dimension after
    dimension, each in stencil order. *)
Theorem jacobian_visits_gradient_points {T : Type} `{Arith T}
    (uninit : nat → T) (ndebug : bool) (mem : store T) (x grad : obj)
    (fv : list T → list T) (f : list T → T) (jac : Matrix T)
    (a : AccuracyOrder) (eps : T) (m : nat) :
  x ≠ grad →
  (∀ v, length (fv v) = m) →
  let calls := gc_evals (finite_gradient_call uninit mem x grad f a eps) in
  calls
  = concat ((fun d => (fun s => <[d := add (mem x !!! d) (mul (c2 a s) eps)]>
                                  (mem x))
                        <$> seq 0 (2 * (acc_index a + 1)))
              <$> seq 0 (length (mem x))) ∧
  ∃ st, finite_jacobian uninit ndebug (mem x) fv jac a eps = Ok st ∧
        js_evals st = mem x :: calls.
Proof.
  intros Hne Hf. cbv zeta.
  destruct (finite_gradient_call_separate uninit mem x grad f a eps Hne)
    as (_ & _ & _ & _ & Hev).
  destruct (finite_gradient_inv uninit (mem x) f (mem grad) a eps)
    as (_ & _ & _ & _ & Hpts).
  rewrite Hev. split; [exact Hpts|].
  destruct (finite_jacobian_ok uninit ndebug (mem x) fv jac a eps)
    as (st & Hst & (_ & _ & _ & _ & _ & _ & Hevj)).
  { intros v. by rewrite !Hf. }
  exists st. split; [done|]. by rewrite Hevj, Hpts.
Qed.

(** ** When finite_jacobian fails *)

(** A loop whose iterations either go on, keeping the invariant, or end
    the call with [E]: the loop completes when every iteration is good,
    and ends with [E] at the first bad one. *)
Lemma for_each_seq_run {St : Type} (P : nat → St → Prop) (Q B : nat → Prop)
    (body : St → nat → outcome St) (n : nat) (s0 : St) (E : outcome St) :
  (∀ s, E ≠ Ok s) →
  P 0 s0 →
  (∀ k s, k < n → P k s →
     (Q k ∧ ∃ s', body s k = Ok s' ∧ P (S k) s') ∨ (B k ∧ body s k = E)) →
  ((∀ k, k < n → Q k) ∧ ∃ s', for_each (seq 0 n) body s0 = Ok s' ∧ P n s') ∨
  ((∃ k, k < n ∧ B k) ∧ for_each (seq 0 n) body s0 = E).
Proof.
  intros HE H0 Hstep.
  assert (G : ∀ m k s, k + m = n → P k s →
            ((∀ j, k ≤ j < n → Q j) ∧
             ∃ s', for_each (seq k m) body s = Ok s' ∧ P n s') ∨
            ((∃ j, k ≤ j < n ∧ B j) ∧ for_each (seq k m) body s = E)).
  { induction m as [|m IH]; intros k s Hk HP; simpl.
    - left. split; [intros j ?; lia|]. exists s. split; [done|].
      by replace n with k by lia.
    - destruct (Hstep k s) as [(HQ & s1 & -> & HP1)|(HB & ->)]; [lia|done| |].
      + simpl. destruct (IH (S k) s1) as [(HQs & Hrun)|((j & Hj & HBj) & Hrun)];
          [lia|done| |].
        * left. split; [|done]. intros j Hj.
          destruct (decide (j = k)) as [->|]; [done|]. apply HQs. lia.
        * right. split; [|done]. exists j. split; [lia|done].
      + right. split; [exists k; split; [lia|done]|].
        destruct E; simpl; try done. by destruct (HE a). }
  destruct (G n 0 s0) as [(HQ & Hrun)|((j & Hj & HB) & Hrun)]; [lia|done| |].
  - left. split; [|done]. intros k Hk. apply HQ. lia.
  - right. split; [|done]. exists j. split; [lia|done].
Qed.

Lemma size_failure_not_ok {A : Type} (ndebug : bool) (s : A) :
  size_failure ndebug ≠ Ok s.
Proof. by destruct ndebug. Qed.

Section JacobianRuns.
Context {T : Type} `{Arith T}.
Variable uninit : nat -> T.
Variable ndebug : bool.
Implicit Types (x : list T) (f : list T → list T) (a : AccuracyOrder) (eps : T).

Lemma size_ok_dec (m k : nat) : {size_ok ndebug m k} + {¬ size_ok ndebug m k}.
Proof. unfold size_ok. destruct ndebug; apply decide; apply _. Qed.

Lemma col_add_scaled_cases (c : T) (v : list T) (d : nat) (M : Matrix T) :
  (size_ok ndebug (m_rows M) (length v) ∧
   col_add_scaled ndebug c v d M
   = Ok (col_map (fun r old => add old (mul c (v !!! r))) d M)) ∨
  (¬ size_ok ndebug (m_rows M) (length v) ∧
   col_add_scaled ndebug c v d M = size_failure ndebug).
Proof.
  unfold col_add_scaled, size_ok, size_failure.
  destruct ndebug; case_decide; auto.
Qed.

Lemma jacobian_inner_run x f a eps d jac0 ev0 k st :
  m_rows jac0 = length (f x) →
  d < m_cols jac0 → d < length x →
  jac_inner_inv x f a eps d jac0 ev0 k st →
  (size_ok ndebug (length (f x)) (length (f (stencil_point x a eps d k))) ∧
   ∃ st', jacobian_inner ndebug f a eps d st k = Ok st' ∧
          jac_inner_inv x f a eps d jac0 ev0 (S k) st') ∨
  (¬ size_ok ndebug (length (f x)) (length (f (stencil_point x a eps d k))) ∧
   jacobian_inner ndebug f a eps d st k = size_failure ndebug).
Proof.
  intros Hm Hd Hdx (Hx & Hxx & Hr & Hc & Hwf & Hent & Hev).
  unfold jacobian_inner. rewrite Hxx, Hx.
  fold (perturbed x d (mul (c2 a k) eps)). fold (stencil_point x a eps d k).
  set (p := stencil_point x a eps d k).
  set (g := fun (r : nat) (old : T) => add old (mul (c1 a k) (f p !!! r))).
  destruct (col_add_scaled_cases (c1 a k) (f p) d (js_jac st))
    as [(Hok & ->)|(Hbad & ->)].
  - left. split; [by rewrite Hr, Hm in Hok|]. simpl. fold g.
    eexists. split; [done|].
    destruct (col_map_spec g d (js_jac st)) as (Hr' & Hc' & Hwf' & Hent');
      [done|lia|].
    unfold jac_inner_inv. cbn [js_x js_xx js_jac js_evals].
    split_and!; try congruence.
    + unfold p. apply restore_one.
    + intros r c Hrr Hcc. rewrite Hent' by lia. rewrite Hent by done.
      case_decide; [|done]. by rewrite stencil_sum_from_snoc.
    + by rewrite Hev, seq_S, fmap_app, app_assoc.
  - right. split; [by rewrite Hr, Hm in Hbad|]. by destruct ndebug.
Qed.

Lemma jacobian_outer_run x f a eps d st :
  d < length x →
  jac_outer_inv x f a eps d st →
  ((∀ s, s < innerSteps a →
      size_ok ndebug (length (f x)) (length (f (stencil_point x a eps d s)))) ∧
   ∃ st', jacobian_outer ndebug f a eps st d = Ok st' ∧
          jac_outer_inv x f a eps (S d) st') ∨
  ((∃ s, s < innerSteps a ∧
      ¬ size_ok ndebug (length (f x))
          (length (f (stencil_point x a eps d s)))) ∧
   jacobian_outer ndebug f a eps st d = size_failure ndebug).
Proof.
  intros Hd (Hx & Hxx & Hr & Hc & Hwf & Hent & Hev).
  unfold jacobian_outer.
  set (zero := fun (_ : nat) (_ : T) => of_Z 0).
  destruct (col_map_spec zero d (js_jac st)) as (Hr0 & Hc0 & Hwf0 & Hent0);
    [done|lia|].
  set (jac0 := col_map zero d (js_jac st)) in *.
  destruct (for_each_seq_run
              (jac_inner_inv x f a eps d jac0 (js_evals st))
              (fun s => size_ok ndebug (length (f x))
                          (length (f (stencil_point x a eps d s))))
              (fun s => ¬ size_ok ndebug (length (f x))
                            (length (f (stencil_point x a eps d s))))
              (jacobian_inner ndebug f a eps d) (innerSteps a)
              {| js_x := js_x st; js_xx := js_xx st; js_jac := jac0;
                 js_evals := js_evals st |}
              (size_failure ndebug))
    as [(Hall & st1 & -> & (Hx1 & Hxx1 & Hr1 & Hc1 & Hwf1 & Hent1 & Hev1))
       |(Hsome & ->)].
  { apply size_failure_not_ok. }
  { unfold jac_inner_inv. cbn [js_x js_xx js_jac js_evals].
    split_and!; try done.
    - intros r c Hrr Hcc. case_decide; [|done]. subst c.
      rewrite Hent0 by lia. by case_decide.
    - by rewrite app_nil_r. }
  { intros k s _. apply jacobian_inner_run; lia. }
  - left. split; [done|]. simpl. eexists. split; [done|].
    set (quot := fun (_ : nat) (old : T) => div old (ddVal a eps)).
    destruct (col_map_spec quot d (js_jac st1)) as (Hr2 & Hc2 & Hwf2 & Hent2);
      [done|lia|].
    unfold jac_outer_inv. cbn [js_x js_xx js_jac js_evals].
    split_and!; try congruence.
    + intros r c Hrr Hcc. rewrite Hent2, Hent1 by lia.
      case_decide as Hcd.
      * by subst c.
      * rewrite Hent0 by lia. rewrite decide_False by done.
        apply Hent; lia.
    + rewrite Hev1, Hev, seq_S, fmap_app, concat_app. simpl.
      by rewrite app_nil_r.
  - right. split; [done|]. by destruct ndebug.
Qed.

(** finite_jacobian returns when the sizes fit at every stencil point and
    fails at the first point where one does not. *)
Lemma finite_jacobian_run x f jac a eps :
  (sizes_fit ndebug x f a eps ∧
   ∃ st, finite_jacobian uninit ndebug x f jac a eps = Ok st ∧
         jac_outer_inv x f a eps (length x) st) ∨
  (size_misfit ndebug x f a eps ∧
   finite_jacobian uninit ndebug x f jac a eps = size_failure ndebug).
Proof.
  unfold finite_jacobian.
  destruct (for_each_seq_run
              (jac_outer_inv x f a eps)
              (fun d => ∀ s, s < innerSteps a →
                 size_ok ndebug (length (f x))
                   (length (f (stencil_point x a eps d s))))
              (fun d => ∃ s, s < innerSteps a ∧
                 ¬ size_ok ndebug (length (f x))
                     (length (f (stencil_point x a eps d s))))
              (jacobian_outer ndebug f a eps) (length x)
              {| js_x := x; js_xx := x;
                 js_jac := mat_resize uninit (length (f x)) (length x) jac;
                 js_evals := [x] |}
              (size_failure ndebug))
    as [(Hall & Hrun)|((d & Hd & s & Hs & Hbad) & Hrun)].
  - apply size_failure_not_ok.
  - unfold jac_outer_inv. cbn [js_x js_xx js_jac js_evals].
    split_and!; auto using mat_wf_resize. intros r c _ ?. lia.
  - intros d st Hd. by apply jacobian_outer_run.
  - left. split; [|done]. intros d s Hd Hs. by apply Hall.
  - right. split; [|done]. by exists d, s.
Qed.
End JacobianRuns.

(** X3: In a build with assertions finite_jacobian either returns or is
    aborted by Eigen's size assertion, never anything else, and it is
    aborted exactly when [f] returns, at some stencil point, a vector whose
    size is not that of [f(x)]. *)
Theorem finite_jacobian_abort {T : Type} `{Arith T} (uninit : nat → T)
    (x : list T) (f : list T → list T) (jac : Matrix T) (a : AccuracyOrder)
    (eps : T) :
  let run := finite_jacobian uninit false x f jac a eps in
  let changes :=
    ∃ d s, d < length x ∧ s < 2 * (acc_index a + 1) ∧
      length (f (<[d := add (x !!! d) (mul (c2 a s) eps)]> x)) ≠ length (f x) in
  (run = Aborted ↔ changes) ∧ ((∃ st, run = Ok st) ↔ ¬ changes).
Proof.
  cbv zeta.
  destruct (finite_jacobian_run uninit false x f jac a eps)
    as [(Hfit & st & Hst & _)|((d & s & Hd & Hs & Hbad) & Hrun)].
  - assert (Hno : ¬ ∃ d s, d < length x ∧ s < 2 * (acc_index a + 1) ∧
              length (f (<[d := add (x !!! d) (mul (c2 a s) eps)]> x))
              ≠ length (f x)).
    { intros (d & s & Hd & Hs & Hne). apply Hne. by apply (Hfit d s). }
    rewrite Hst. split; split; try done.
    + intros _. by exists st.
  - assert (Hyes : ∃ d s, d < length x ∧ s < 2 * (acc_index a + 1) ∧
              length (f (<[d := add (x !!! d) (mul (c2 a s) eps)]> x))
              ≠ length (f x)) by by exists d, s.
    rewrite Hrun. split; split; try done.
    + intros [st Hst]. done.
Qed.

(** X4: With [NDEBUG] the sizes are not compared.  When every vector [f]
    returns at a stencil point is at least as long as [f(x)],
    finite_jacobian returns the matrix the formula gives on the first
    [f(x).rows()] components, whatever follows them; it reads outside a
    vector exactly when one of them is shorter. *)
Theorem finite_jacobian_unchecked {T : Type} `{Arith T} (uninit : nat → T)
    (x : list T) (f : list T → list T) (jac : Matrix T) (a : AccuracyOrder)
    (eps : T) :
  let run := finite_jacobian uninit true x f jac a eps in
  let shorter :=
    ∃ d s, d < length x ∧ s < 2 * (acc_index a + 1) ∧
      length (f (<[d := add (x !!! d) (mul (c2 a s) eps)]> x)) < length (f x) in
  (run = Undefined ↔ shorter) ∧
  (¬ shorter →
   ∃ st, run = Ok st ∧
     m_rows (js_jac st) = length (f x) ∧ m_cols (js_jac st) = length x ∧
     ∀ r d, r < length (f x) → d < length x →
       mat_get (js_jac st) r d =
       div (stencil_sum a
              (fun s => f (<[d := add (x !!! d) (mul (c2 a s) eps)]> x) !!! r))
           (mul (of_Z (dd !!! acc_index a)) eps)).
Proof.
  cbv zeta.
  destruct (finite_jacobian_run uninit true x f jac a eps)
    as [(Hfit & st & Hst & (_ & _ & Hr & Hc & _ & Hent & _))
       |((d & s & Hd & Hs & Hbad) & Hrun)].
  - assert (Hno : ¬ ∃ d s, d < length x ∧ s < 2 * (acc_index a + 1) ∧
              length (f (<[d := add (x !!! d) (mul (c2 a s) eps)]> x))
              < length (f x)).
    { intros (d & s & Hd & Hs & Hlt). specialize (Hfit d s Hd Hs).
      unfold size_ok, stencil_point, perturbed in Hfit. lia. }
    rewrite Hst. split; [split; done|].
    intros _. exists st. split_and!; try done.
  - assert (Hyes : ∃ d s, d < length x ∧ s < 2 * (acc_index a + 1) ∧
              length (f (<[d := add (x !!! d) (mul (c2 a s) eps)]> x))
              < length (f x)).
    { exists d, s. split_and!; try done.
      unfold size_ok, stencil_point, perturbed in Hbad. lia. }
    rewrite Hrun. split; [split; done|]. done.
Qed.

(** ** Nothing of the previous output survives *)

Lemma mat_ext {T : Type} `{Arith T} (M N : Matrix T) :
  mat_wf M → mat_wf N → m_rows M = m_rows N → m_cols M = m_cols N →
  (∀ r c, r < m_rows M → c < m_cols M → mat_get M r c = mat_get N r c) →
  M = N.
Proof.
  destruct M as [r c dat], N as [r' c' dat']. unfold mat_wf, mat_get, mat_idx.
  simpl. intros Hw Hw' <- <- Hent. f_equal.
  apply (list_eq_same_length _ _ (r * c)); [done..|].
  intros i v w Hi Hv Hw2.
  assert (Hr : 0 < r) by (destruct r; lia).
  assert (Hmod : i mod r < r) by (apply Nat.mod_upper_bound; lia).
  assert (Hdiv : i / r < c) by (apply Nat.Div0.div_lt_upper_bound; lia).
  specialize (Hent (i mod r) (i / r) Hmod Hdiv).
  replace (i mod r + i / r * r) with i in Hent
    by (rewrite (Nat.div_mod_eq i r) at 1; lia).
  rewrite (list_lookup_total_correct _ _ _ Hv) in Hent.
  by rewrite (list_lookup_total_correct _ _ _ Hw2) in Hent.
Qed.

Lemma jac_outer_inv_unique {T : Type} `{Arith T} (x : list T)
    (f : list T → list T) (a : AccuracyOrder) (eps : T) (st st' : jac_state) :
  jac_outer_inv x f a eps (length x) st →
  jac_outer_inv x f a eps (length x) st' → st = st'.
Proof.
  intros (Hx & Hxx & Hr & Hc & Hwf & Hent & Hev)
         (Hx' & Hxx' & Hr' & Hc' & Hwf' & Hent' & Hev').
  destruct st as [sx sxx sj se], st' as [sx' sxx' sj' se']. simpl in *.
  f_equal; try congruence.
  apply mat_ext; try congruence.
  intros r c Hrr Hcc. rewrite Hent, Hent' by lia. done.
Qed.

(** X5: Every coefficient of the output is written by the call: the results
    of finite_gradient, finite_jacobian and finite_hessian (the same
    failure, if finite_jacobian fails) do not depend on what the output
    held before, nor on what uninitialised storage holds. *)
Theorem outputs_overwritten {T : Type} `{Arith T} (uninit uninit' : nat → T)
    (ndebug : bool) (x : list T) (f : list T → T) (fv : list T → list T)
    (grad grad' : list T) (jac jac' hess hess' : Matrix T)
    (a : AccuracyOrder) (eps : T) :
  finite_gradient uninit x f grad a eps
  = finite_gradient uninit' x f grad' a eps ∧
  finite_jacobian uninit ndebug x fv jac a eps
  = finite_jacobian uninit' ndebug x fv jac' a eps ∧
  finite_hessian uninit x f hess eps = finite_hessian uninit' x f hess' eps.
Proof.
  split_and!.
  - destruct (finite_gradient_inv uninit x f grad a eps)
      as (Hx & Hxx & Hlen & Hpre & Hev).
    destruct (finite_gradient_inv uninit' x f grad' a eps)
      as (Hx' & Hxx' & Hlen' & Hpre' & Hev').
    rewrite <- Hlen, firstn_all in Hpre. rewrite <- Hlen', firstn_all in Hpre'.
    destruct (finite_gradient _ _ _ grad _ _),
             (finite_gradient _ _ _ grad' _ _). simpl in *.
    f_equal; congruence.
  - destruct (finite_jacobian_run uninit ndebug x fv jac a eps)
      as [(Hfit & st & -> & Hinv)|((d & s & Hd & Hs & Hbad) & ->)],
       (finite_jacobian_run uninit' ndebug x fv jac' a eps)
      as [(Hfit' & st' & -> & Hinv')|((d' & s' & Hd' & Hs' & Hbad') & ->)].
    + f_equal. by eapply jac_outer_inv_unique.
    + destruct Hbad'. by apply Hfit.
    + destruct Hbad. by apply Hfit'.
    + done.
  - destruct (finite_hessian_code uninit x f hess eps)
      as (Hr & Hc & Hwf & Hent & Hev & _ & Hx & Hxx).
    destruct (finite_hessian_code uninit' x f hess' eps)
      as (Hr' & Hc' & Hwf' & Hent' & Hev' & _ & Hx' & Hxx').
    destruct (finite_hessian _ _ _ hess _),
             (finite_hessian _ _ _ hess' _). simpl in *.
    f_equal; try congruence.
    apply mat_ext; try congruence.
    intros r c Hrr Hcc. rewrite Hent, Hent' by lia. done.
Qed.

(** ** What the comparators log *)

Section LogProofs.
Context {T : Type} `{Arith T}.
Variable ndebug : bool.
Implicit Types (x y : list T) (X Y : Matrix T) (tol : T) (msg : string).

Lemma check_pair_log tol msg r c xv yv (st : bool * list (diag T)) :
  check_pair tol msg r c xv yv st
  = (st.1 && negb (too_far tol xv yv),
     st.2 ++ (if too_far tol xv yv then [diag_for tol msg r c xv yv] else [])).
Proof.
  unfold check_pair, too_far, diag_for. destruct st as [b log]. simpl.
  destruct (gtb _ _); simpl.
  - by rewrite andb_false_r.
  - by rewrite andb_true_r, app_nil_r.
Qed.

(** A loop whose body clears the flag and extends the log for the bad
    indices. *)
Lemma check_loop_log
    (body : bool * list (diag T) → nat → outcome (bool * list (diag T)))
    (far : nat → bool) (rec : nat → list (diag T)) (l : list nat) :
  (∀ st d, d ∈ l → body st d = Ok (st.1 && negb (far d), st.2 ++ rec d)) →
  ∀ st, for_each l body st
        = Ok (st.1 && forallb (fun d => negb (far d)) l,
              st.2 ++ concat (rec <$> l)).
Proof.
  induction l as [|d l IH]; intros Hbody st; simpl.
  - rewrite andb_true_r, app_nil_r. by destruct st.
  - rewrite (Hbody st d) by left. simpl.
    rewrite IH by (intros st' d' Hd'; apply Hbody; by right). simpl.
    by rewrite andb_assoc, app_assoc.
Qed.

(** The flag stays true exactly when nothing is logged. *)
Lemma flag_true_log_empty (far : nat → bool) (rec : nat → list (diag T))
    (l : list nat) :
  (∀ d, far d = false ↔ rec d = []) →
  forallb (fun d => negb (far d)) l = true ↔ concat (rec <$> l) = [].
Proof.
  intros Hrec. induction l as [|d l IH]; [done|].
  rewrite fmap_cons. cbn [forallb concat].
  rewrite andb_true_iff, negb_true_iff, IH, (Hrec d). split.
  - intros [-> ->]. done.
  - intros Happ. by apply app_eq_nil in Happ.
Qed.

Lemma compare_gradient_full x y tol msg :
  length x = length y →
  compare_gradient ndebug x y tol msg
  = Ok (vec_within tol x y, vec_log tol msg x y).
Proof.
  intros Hlen. unfold compare_gradient, cassert.
  rewrite bool_decide_eq_true_2 by done.
  assert (Hass : (if ndebug then Ok () else Ok ()) = Ok ())
    by by destruct ndebug.
  rewrite Hass. simpl.
  rewrite (check_loop_log _ (fun d => too_far tol (x !!! d) (y !!! d))
             (fun d => if too_far tol (x !!! d) (y !!! d)
                       then [diag_for tol msg d None (x !!! d) (y !!! d)]
                       else [])); [done|].
  intros st d Hd. apply elem_of_seq in Hd.
  rewrite !vec_at_ok by lia. simpl. by rewrite check_pair_log.
Qed.

Lemma compare_jacobian_full X Y tol msg :
  same_shape X Y →
  compare_jacobian ndebug X Y tol msg
  = Ok (mat_within tol X Y, mat_log tol msg X Y).
Proof.
  intros (HwX & HwY & Hr & Hc). unfold compare_jacobian, cassert.
  rewrite !bool_decide_eq_true_2 by done.
  assert (Hass : (if ndebug then Ok () else Ok ()) = Ok ())
    by by destruct ndebug.
  rewrite Hass. simpl.
  set (far := fun d c => too_far tol (mat_get X d c) (mat_get Y d c)).
  set (rec := fun d c => if far d c
                         then [diag_for tol msg d (Some c)
                                 (mat_get X d c) (mat_get Y d c)]
                         else []).
  rewrite (check_loop_log _
             (fun d => negb (forallb (fun c => negb (far d c))
                                     (seq 0 (m_cols X))))
             (fun d => concat (rec d <$> seq 0 (m_cols X)))).
  - simpl. do 2 f_equal. unfold mat_within.
    induction (seq 0 (m_rows X)) as [|d l IH]; simpl; [done|].
    by rewrite negb_involutive, IH.
  - intros st d Hd. apply elem_of_seq in Hd. rewrite negb_involutive.
    apply (check_loop_log _ (far d) (rec d)).
    intros st' c Hcc. apply elem_of_seq in Hcc.
    rewrite !mat_at_ok by (done || lia). simpl. by rewrite check_pair_log.
Qed.

Lemma vec_log_empty tol msg x y :
  vec_within tol x y = true ↔ vec_log tol msg x y = [].
Proof.
  apply flag_true_log_empty. intros d. by destruct (too_far _ _ _).
Qed.

Lemma mat_log_empty tol msg X Y :
  mat_within tol X Y = true ↔ mat_log tol msg X Y = [].
Proof.
  unfold mat_within, mat_log.
  induction (seq 0 (m_rows X)) as [|d l IH]; [done|].
  rewrite fmap_cons. cbn [forallb concat].
  rewrite andb_true_iff, IH.
  rewrite (flag_true_log_empty
             (fun c => too_far tol (mat_get X d c) (mat_get Y d c))
             (fun c => if too_far tol (mat_get X d c) (mat_get Y d c)
                       then [diag_for tol msg d (Some c)
                               (mat_get X d c) (mat_get Y d c)]
                       else []))
    by (intros c; by destruct (too_far _ _ _)).
  split.
  - intros [-> ->]. done.
  - intros Happ. by apply app_eq_nil in Happ.
Qed.
End LogProofs.

(** X6: On inputs of one shape the comparators send to the log exactly one
    record for each pair that is too far apart, in loop order, with the
    label, the tolerance, the position and the two values; and they return
    true exactly when they have logged nothing. *)
Theorem comparators_log {T : Type} `{Arith T} (ndebug : bool) (x y : list T)
    (X Y : Matrix T) (tol : T) (msg : string) :
  (length x = length y →
   compare_gradient ndebug x y tol msg
   = Ok (vec_within tol x y, vec_log tol msg x y) ∧
   (vec_within tol x y = true ↔ vec_log tol msg x y = [])) ∧
  (same_shape X Y →
   compare_jacobian ndebug X Y tol msg
   = Ok (mat_within tol X Y, mat_log tol msg X Y) ∧
   (mat_within tol X Y = true ↔ mat_log tol msg X Y = [])).
Proof.
  split.
  - intros Hlen. split; [by apply compare_gradient_full|apply vec_log_empty].
  - intros Hs. split; [by apply compare_jacobian_full|apply mat_log_empty].
Qed.

(** ** The comparators as a relation, in exact arithmetic *)

Section ExactRelation.
Import Exact.
Implicit Types (tol xv yv : R).

Lemma real_scale_ge_1 xv yv : (1 <= scale_of xv yv)%R.
Proof. rewrite real_scale. apply Rmax_r. Qed.

Lemma real_too_far tol xv yv :
  too_far tol xv yv = true ↔ (tol * scale_of xv yv < Rabs (xv - yv))%R.
Proof.
  unfold too_far, gtb. simpl. destruct (Rlt_dec _ _); split; (done || lra).
Qed.

Lemma real_not_too_far tol xv yv :
  too_far tol xv yv = false ↔ (Rabs (xv - yv) <= tol * scale_of xv yv)%R.
Proof.
  unfold too_far, gtb. simpl. destruct (Rlt_dec _ _); split; (done || lra).
Qed.

Lemma real_too_far_mono tol tol' xv yv :
  (tol <= tol')%R → too_far tol xv yv = false → too_far tol' xv yv = false.
Proof.
  rewrite !real_not_too_far. intros Htol Hle.
  pose proof (real_scale_ge_1 xv yv). nra.
Qed.

Lemma real_too_far_sym tol xv yv : too_far tol xv yv = too_far tol yv xv.
Proof.
  unfold too_far. rewrite !real_scale. simpl.
  by rewrite (Rabs_minus_sym xv yv), (Rmax_comm (Rabs xv) (Rabs yv)).
Qed.

Lemma real_too_far_negative tol xv yv :
  (tol < 0)%R → too_far tol xv yv = true.
Proof.
  intros Htol. apply real_too_far.
  pose proof (real_scale_ge_1 xv yv). pose proof (Rabs_pos (xv - yv)). nra.
Qed.
End ExactRelation.

Lemma forallb_pointwise {A : Type} (f g : A → bool) (l : list A) :
  (∀ a, f a = g a) → forallb f l = forallb g l.
Proof.
  intros Hfg. induction l as [|a l IH]; simpl; [done|]. by rewrite Hfg, IH.
Qed.

(** X7: In exact arithmetic a larger tolerance accepts whatever a smaller one
    accepts, for vectors and for matrices. *)
Theorem tolerance_monotone (ndebug : bool) (x y : list R) (X Y : Matrix R)
    (tol tol' : R) (msg : string) :
  (tol <= tol')%R →
  (length x = length y →
   returns (compare_gradient ndebug x y tol msg) true →
   returns (compare_gradient ndebug x y tol' msg) true) ∧
  (same_shape X Y →
   returns (compare_jacobian ndebug X Y tol msg) true →
   returns (compare_jacobian ndebug X Y tol' msg) true).
Proof.
  intros Htol. split.
  - intros Hlen [log Hret].
    rewrite (compare_gradient_full ndebug x y tol msg Hlen) in Hret.
    injection Hret as Hflag _.
    rewrite (compare_gradient_full ndebug x y tol' msg Hlen).
    eexists. do 2 f_equal.
    apply vec_within_true; [done|]. apply vec_within_true in Hflag; [|done].
    intros d xv yv Hx Hy. eapply real_too_far_mono; [done|]. by eapply Hflag.
  - intros Hs [log Hret].
    rewrite (compare_jacobian_full ndebug X Y tol msg Hs) in Hret.
    injection Hret as Hflag _.
    rewrite (compare_jacobian_full ndebug X Y tol' msg Hs).
    eexists. do 2 f_equal.
    apply mat_within_true. apply mat_within_true in Hflag.
    intros r c Hr Hc. eapply real_too_far_mono; [done|]. by apply Hflag.
Qed.

(** X8: In exact arithmetic the comparators are symmetric: swapping the two
    arguments does not change the flag. *)
Theorem comparators_symmetric (ndebug : bool) (x y : list R) (X Y : Matrix R)
    (tol : R) (msg : string) (b : bool) :
  (length x = length y →
   returns (compare_gradient ndebug x y tol msg) b →
   returns (compare_gradient ndebug y x tol msg) b) ∧
  (same_shape X Y →
   returns (compare_jacobian ndebug X Y tol msg) b →
   returns (compare_jacobian ndebug Y X tol msg) b).
Proof.
  split.
  - intros Hlen [log Hret].
    rewrite (compare_gradient_full ndebug x y tol msg Hlen) in Hret.
    injection Hret as Hflag _.
    rewrite (compare_gradient_full ndebug y x tol msg (eq_sym Hlen)).
    eexists. do 2 f_equal. rewrite <- Hflag. unfold vec_within.
    rewrite <- Hlen. apply forallb_pointwise. intros d.
    by rewrite real_too_far_sym.
  - intros (HwX & HwY & Hr & Hc) [log Hret].
    rewrite (compare_jacobian_full ndebug X Y tol msg) in Hret by done.
    injection Hret as Hflag _.
    rewrite (compare_jacobian_full ndebug Y X tol msg) by done.
    eexists. do 2 f_equal. rewrite <- Hflag. unfold mat_within.
    rewrite <- Hr, <- Hc. apply forallb_pointwise. intros d.
    apply forallb_pointwise. intros c. by rewrite real_too_far_sym.
Qed.

(** X9: In exact arithmetic a negative tolerance accepts nothing but empty
    input: compare_gradient then returns true exactly when the vectors have
    no element, so not even for two equal vectors. *)
Theorem negative_tolerance (ndebug : bool) (x y : list R) (tol : R)
    (msg : string) :
  (tol < 0)%R → length x = length y →
  returns (compare_gradient ndebug x y tol msg) (bool_decide (x = [])).
Proof.
  intros Htol Hlen.
  rewrite (compare_gradient_full ndebug x y tol msg Hlen).
  eexists. do 2 f_equal. unfold vec_within.
  destruct x as [|x0 x]; [done|]. rewrite bool_decide_eq_false_2 by done.
  cbn [length seq forallb]. by rewrite real_too_far_negative.
Qed.

(** ** The matrix comparator and the vector comparator *)

Lemma storage_pairs {T : Type} `{Arith T} (P : T → T → Prop) (X Y : Matrix T) :
  same_shape X Y →
  mat_pairs_all P X Y ↔ vec_pairs_all P (m_data X) (m_data Y).
Proof.
  intros (HwX & HwY & Hr & Hc). unfold mat_pairs_all, vec_pairs_all. split.
  - intros Hall k xv yv Hx Hy.
    assert (Hk : k < m_rows X * m_cols X)
      by (rewrite <- HwX; by eapply lookup_lt_Some).
    assert (Hpos : 0 < m_rows X) by (destruct (m_rows X); lia).
    assert (Hmod : k mod m_rows X < m_rows X)
      by (apply Nat.mod_upper_bound; lia).
    assert (Hdiv : k / m_rows X < m_cols X)
      by (apply Nat.Div0.div_lt_upper_bound; lia).
    specialize (Hall _ _ Hmod Hdiv). unfold mat_get, mat_idx in Hall.
    rewrite <- Hr in Hall.
    replace (k mod m_rows X + k / m_rows X * m_rows X) with k in Hall
      by (rewrite (Nat.div_mod_eq k (m_rows X)) at 1; lia).
    by rewrite (list_lookup_total_correct _ _ _ Hx),
               (list_lookup_total_correct _ _ _ Hy) in Hall.
  - intros Hall r c Hrr Hcc. unfold mat_get.
    assert (Hi : mat_idx X r c < length (m_data X)) by by apply mat_idx_lt.
    assert (Hj : mat_idx Y r c = mat_idx X r c)
      by (unfold mat_idx; by rewrite Hr).
    rewrite Hj. apply (Hall (mat_idx X r c));
      apply list_lookup_lookup_total_lt; [done|].
    unfold mat_wf in *. rewrite HwY, <- Hr, <- Hc, <- HwX. done.
Qed.

(** X10: compare_jacobian accepts two matrices of one shape exactly when
    compare_gradient accepts their coefficient storages read as vectors:
    the order in which the pairs are visited does not matter for the
    flag. *)
Theorem jacobian_comparator_on_storage {T : Type} `{Arith T} (ndebug : bool)
    (X Y : Matrix T) (tol : T) (msg : string) :
  same_shape X Y →
  ∃ b, returns (compare_jacobian ndebug X Y tol msg) b ∧
       returns (compare_gradient ndebug (m_data X) (m_data Y) tol msg) b.
Proof.
  intros Hs. pose proof Hs as (HwX & HwY & Hr & Hc).
  assert (Hlen : length (m_data X) = length (m_data Y)).
  { unfold mat_wf in *. by rewrite HwX, HwY, Hr, Hc. }
  exists (mat_within tol X Y). split; [by apply compare_jacobian_returns|].
  assert (E : vec_within tol (m_data X) (m_data Y) = mat_within tol X Y).
  { apply eq_true_iff_eq.
    rewrite vec_within_true by done. rewrite mat_within_true.
    symmetry. by apply storage_pairs. }
  rewrite <- E. by apply compare_gradient_returns.
Qed.

(** ** What the stencils compute, in exact arithmetic *)

Section ExactStencil.
Import Exact.
Variable uninit : nat → R.
Implicit Types (x : list R) (f : list R → R) (eps : R) (a : AccuracyOrder).

Lemma gradient_entry_weighted x f a eps d :
  gradient_entry x f a eps d
  = (weighted_from (stencil_pairs a) (fun h => f (perturbed x d h)) eps 0
     / (IZR (dd !!! acc_index a) * eps))%R.
Proof. destruct a; reflexivity. Qed.


(** Replaces the tables of one accuracy order by their values. *)
Ltac expand_stencil a :=
  let l := eval vm_compute in (stencil_pairs a) in
  change (stencil_pairs a) with l;
  let k := eval vm_compute in (dd !!! acc_index a) in
  change (dd !!! acc_index a) with k;
  unfold weighted_from; cbn [fold_left fst snd].

(** The weights differentiate polynomials of degree up to the order of
    the stencil exactly. *)
Lemma weighted_poly a (cs : list R) eps :
  eps ≠ 0%R → length cs ≤ 2 * (acc_index a + 1) + 1 →
  (weighted_from (stencil_pairs a) (poly_eval cs) eps 0
   / (IZR (dd !!! acc_index a) * eps))%R
  = nth 1 cs 0%R.
Proof.
  intros Heps Hlen.
  destruct a; [expand_stencil Order2|expand_stencil Order4
              |expand_stencil Order6|expand_stencil Order8];
    repeat (destruct cs as [|? cs];
            [cbn [poly_eval fold_right nth]; field; exact Heps|]);
    simpl in Hlen; lia.
Qed.

Lemma weighted_from_ext (l : list (Z * Z)) (F G : R → R) eps acc :
  (∀ h, F h = G h) → weighted_from l F eps acc = weighted_from l G eps acc.
Proof.
  intros HFG. unfold weighted_from. revert acc.
  induction l as [|p l IH]; intros acc; simpl; [done|]. by rewrite HFG, IH.
Qed.

Lemma weighted_from_acc (l : list (Z * Z)) (F : R → R) eps acc :
  weighted_from l F eps acc = (acc + weighted_from l F eps 0)%R.
Proof.
  unfold weighted_from. revert acc.
  induction l as [|p l IH]; intros acc; simpl; [lra|].
  rewrite IH. rewrite (IH (0 + _)%R). lra.
Qed.



End ExactStencil.





Section ExactHessianValues.
Import Exact.
Implicit Types (x : list R) (f : list R → R) (eps : R).

Lemma perturbed_zero x j : perturbed x j 0%R = x.
Proof.
  unfold perturbed. apply list_insert_id'. intros Hj.
  rewrite (list_lookup_lookup_total_lt x j Hj). f_equal. simpl. lra.
Qed.

Lemma perturbed_twice x i (s t : R) :
  perturbed (perturbed x i s) i t = perturbed x i (s + t)%R.
Proof.
  rewrite !perturbed_alter, list_alter_alter_eq.
  apply list_alter_ext; [|done]. intros v _. simpl. lra.
Qed.
End ExactHessianValues.

(** X14: In exact arithmetic finite_hessian is exact on quadratics: if [f] is,
    on the plane through [x] spanned by the axes [i] and [j], a polynomial
    of degree 2 in the two displacements, entry [(i, j)] is the coefficient
    of their product; and if [f] is a quadratic along the axis [i], entry
    [(i, i)] is twice the coefficient of the square.  Every step
    [eps <> 0] gives these values. *)
Theorem hessian_exact_on_quadratics (uninit : nat → R) (x : list R)
    (f : list R → R) (hess : Matrix R) (eps : R) (i j : nat)
    (c00 c10 c01 c20 c11 c02 q0 q1 q2 : R) :
  eps ≠ 0%R → i < length x → j < length x →
  let h := hs_hess (finite_hessian uninit x f hess eps) in
  ((∀ s t, f (perturbed (perturbed x i s) j t)
           = (c00 + c10 * s + c01 * t + c20 * s * s + c11 * s * t
              + c02 * t * t)%R) →
   mat_get h i j = c11) ∧
  ((∀ s, f (perturbed x i s) = (q0 + q1 * s + q2 * s * s)%R) →
   mat_get h i i = (2 * q2)%R).
Proof.
  intros Heps Hi Hj.
  destruct (finite_hessian_code uninit x f hess eps)
    as (_ & _ & _ & Hent & _).
  cbv zeta. split.
  - intros Hf. rewrite Hent, hessian_entry_exact by done.
    unfold mixed_difference.
    assert (E1 : f (perturbed x i eps) = f (perturbed (perturbed x i eps) j 0%R))
      by by rewrite perturbed_zero.
    assert (E2 : f (perturbed x j eps) = f (perturbed (perturbed x i 0%R) j eps))
      by by rewrite (perturbed_zero x i).
    assert (E3 : f x = f (perturbed (perturbed x i 0%R) j 0%R))
      by by rewrite !perturbed_zero.
    rewrite E1, E2, E3, !Hf. simpl. field. done.
  - intros Hf. rewrite Hent, hessian_entry_exact by done.
    unfold mixed_difference. rewrite perturbed_twice.
    assert (E3 : f x = f (perturbed x i 0%R)) by by rewrite perturbed_zero.
    rewrite E3, !Hf. simpl. field. done.
Qed.

(** X15: In exact arithmetic finite_jacobian is exact on maps whose components
    are, along the axis [d] through [x], polynomials of degree at most the
    order of the stencil: entry [(r, d)] is the linear coefficient of
    component [r].  In particular the Jacobian of an affine map is its
    matrix, for every order and every step [eps <> 0]. *)
Theorem jacobian_exact_on_polynomials (uninit : nat → R) (ndebug : bool)
    (x : list R) (fv : list R → list R) (jac : Matrix R) (a : AccuracyOrder)
    (eps : R) (m d : nat) (cs : nat → list R) :
  eps ≠ 0%R → d < length x → (∀ v, length (fv v) = m) →
  (∀ r, r < m → length (cs r) ≤ 2 * (acc_index a + 1) + 1 ∧
        ∀ h, fv (<[d := (x !!! d + h)%R]> x) !!! r = poly_eval (cs r) h) →
  ∃ st, finite_jacobian uninit ndebug x fv jac a eps = Ok st ∧
        ∀ r, r < m → mat_get (js_jac st) r d = nth 1 (cs r) 0%R.
Proof.
  intros Heps Hd Hf Hpoly.
  destruct (finite_jacobian_ok uninit ndebug x fv jac a eps)
    as (st & Hst & (_ & _ & _ & _ & _ & Hent & _)).
  { intros v. by rewrite !Hf. }
  exists st. split; [done|]. intros r Hr.
  destruct (Hpoly r Hr) as [Hlen Hcs].
  rewrite Hent by (rewrite ?Hf; lia). unfold jacobian_entry.
  rewrite gradient_entry_weighted.
  rewrite (weighted_from_ext _ _ (poly_eval (cs r))) by exact Hcs.
  by apply weighted_poly.
Qed.

(** X16: A matrix is as close to itself as any tolerance [>= 0] asks:
    compare_jacobian and compare_hessian return true on [(X, X)], in exact
    and in double arithmetic (NaN and infinite coefficients included). *)
Theorem matrix_comparators_reflexive :
  (∀ (ndebug : bool) (X : Matrix R) (tol : R) (msg : string),
     mat_wf X → (0 <= tol)%R →
     returns (compare_jacobian ndebug X X tol msg) true ∧
     returns (compare_hessian ndebug X X tol msg) true) ∧
  (∀ (ndebug : bool) (X : Matrix float) (tol : float) (msg : string),
     mat_wf X → PrimFloat.leb PrimFloat.zero tol = true →
     returns (compare_jacobian ndebug X X tol msg) true ∧
     returns (compare_hessian ndebug X X tol msg) true).
Proof.
  split.
  - intros ndebug X tol msg Hwf Htol.
    assert (E : mat_within tol X X = true).
    { apply mat_within_true. intros r c _ _. by apply real_self_close. }
    unfold compare_hessian. rewrite <- E.
    split; by apply compare_jacobian_returns.
  - intros ndebug X tol msg Hwf Htol.
    assert (E : mat_within tol X X = true).
    { apply mat_within_true. intros r c _ _. by apply double_self_close. }
    unfold compare_hessian. rewrite <- E.
    split; by apply compare_jacobian_returns.
Qed.

(** X17: In exact arithmetic the tolerance is absolute for small values and
    relative for large ones: on vectors whose elements all lie in
    [[-1, 1]] compare_gradient returns true exactly when every
    [|xi - yi| <= tol]; on pairs with [|xi| >= 1] or [|yi| >= 1] exactly
    when every [|xi - yi| <= tol * max(|xi|, |yi|)]. *)
Theorem tolerance_absolute_then_relative (ndebug : bool) (x y : list R)
    (tol : R) (msg : string) :
  length x = length y →
  ((∀ v, v ∈ x ++ y → (Rabs v <= 1)%R) →
   (returns (compare_gradient ndebug x y tol msg) true ↔
    ∀ d xv yv, x !! d = Some xv → y !! d = Some yv →
      (Rabs (xv - yv) <= tol)%R)) ∧
  ((∀ d xv yv, x !! d = Some xv → y !! d = Some yv →
      (1 <= Rabs xv)%R ∨ (1 <= Rabs yv)%R) →
   (returns (compare_gradient ndebug x y tol msg) true ↔
    ∀ d xv yv, x !! d = Some xv → y !! d = Some yv →
      (Rabs (xv - yv) <= tol * Rmax (Rabs xv) (Rabs yv))%R)).
Proof.
  intros Hlen.
  assert (Hret : returns (compare_gradient ndebug x y tol msg) true ↔
                 vec_pairs_all (fun xv yv => too_far tol xv yv = false) x y).
  { rewrite <- vec_within_true by done.
    unfold returns. rewrite (compare_gradient_full ndebug x y tol msg Hlen).
    split; [intros [log [= -> _]]; done|intros ->; by eexists]. }
  rewrite Hret. unfold vec_pairs_all. split.
  - intros Hsmall.
    split; intros Hall d xv yv Hx Hy; specialize (Hall d xv yv Hx Hy);
      rewrite real_not_too_far, real_scale in *;
      assert (Hxv : (Rabs xv <= 1)%R)
        by (apply Hsmall, elem_of_app; left; by eapply list_elem_of_lookup_2);
      assert (Hyv : (Rabs yv <= 1)%R)
        by (apply Hsmall, elem_of_app; right; by eapply list_elem_of_lookup_2);
      rewrite (Rmax_right _ 1) in * by (by apply Rmax_lub); lra.
  - intros Hlarge.
    split; intros Hall d xv yv Hx Hy; specialize (Hall d xv yv Hx Hy);
      rewrite real_not_too_far, real_scale in *;
      assert (Hbig : (1 <= Rmax (Rabs xv) (Rabs yv))%R)
        by (destruct (Hlarge d xv yv Hx Hy);
            [etrans; [done|apply Rmax_l]|etrans; [done|apply Rmax_r]]);
      rewrite (Rmax_left _ 1) in * by done; done.
Qed.

(** X18: The assertions never change a result: whenever a call returns in a
    build with assertions, it returns the same with [NDEBUG].  This holds
    for finite_jacobian and for the three comparators. *)
Theorem assertions_change_nothing {T : Type} `{Arith T} (uninit : nat → T)
    (x y : list T) (X Y : Matrix T) (fv : list T → list T) (jac : Matrix T)
    (a : AccuracyOrder) (eps tol : T) (msg : string) :
  (∀ st, finite_jacobian uninit false x fv jac a eps = Ok st →
         finite_jacobian uninit true x fv jac a eps = Ok st) ∧
  (∀ r, compare_gradient false x y tol msg = Ok r →
        compare_gradient true x y tol msg = Ok r) ∧
  (mat_wf X → mat_wf Y →
   ∀ r, compare_jacobian false X Y tol msg = Ok r →
        compare_jacobian true X Y tol msg = Ok r ∧
        compare_hessian true X Y tol msg = Ok r).
Proof.
  split_and!.
  - intros st Hst.
    destruct (finite_jacobian_run uninit false x fv jac a eps)
      as [(Hfit & st0 & Hst0 & Hinv)|(_ & Hfail)];
      [|by rewrite Hfail in Hst].
    rewrite Hst0 in Hst. injection Hst as ->.
    destruct (finite_jacobian_run uninit true x fv jac a eps)
      as [(_ & st1 & -> & Hinv1)|((d & s & Hd & Hs & Hbad) & _)].
    + f_equal. by eapply jac_outer_inv_unique.
    + destruct Hbad. specialize (Hfit d s Hd Hs). unfold size_ok in *. lia.
  - intros r Hr.
    destruct (decide (length x = length y)) as [Hlen|Hne].
    + rewrite (compare_gradient_full false x y tol msg Hlen) in Hr.
      by rewrite (compare_gradient_full true x y tol msg Hlen).
    + unfold compare_gradient, cassert in Hr.
      by rewrite bool_decide_eq_false_2 in Hr.
  - intros HwX HwY r Hr. unfold compare_hessian.
    destruct (decide (m_rows X = m_rows Y)) as [Er|Er];
      [destruct (decide (m_cols X = m_cols Y)) as [Ec|Ec]|].
    + rewrite (compare_jacobian_full false X Y tol msg) in Hr by done.
      by rewrite (compare_jacobian_full true X Y tol msg).
    + unfold compare_jacobian, cassert in Hr.
      rewrite (bool_decide_eq_true_2 _ Er) in Hr. simpl in Hr.
      rewrite (bool_decide_eq_false_2 _ Ec) in Hr. by simpl in Hr.
    + unfold compare_jacobian, cassert in Hr.
      rewrite (bool_decide_eq_false_2 _ Er) in Hr. by simpl in Hr.
Qed.

(** ** The further properties on sample inputs *)

(** Pairs of reals within the tolerance make compare_gradient return
    true. *)
Lemma real_vectors_accepted (ndebug : bool) (x y : list R) (tol : R)
    (msg : string) :
  Forall2 (fun xv yv =>
             (Rabs (xv - yv) <= tol * Rmax (Rmax (Rabs xv) (Rabs yv)) 1)%R)
          x y →
  returns (compare_gradient ndebug x y tol msg) true.
Proof.
  intros Hall. pose proof (Forall2_length _ _ _ Hall) as Hlen.
  assert (E : vec_within tol x y = true).
  { apply vec_within_true; [done|]. intros d xv yv Hx Hy.
    apply real_not_too_far. rewrite real_scale.
    by apply (Forall2_lookup_lr _ _ _ _ _ _ Hall Hx Hy). }
  rewrite <- E. by apply compare_gradient_returns.
Qed.

Lemma real_matrices_accepted (ndebug : bool) (X Y : Matrix R) (tol : R)
    (msg : string) :
  same_shape X Y →
  Forall2 (fun xv yv =>
             (Rabs (xv - yv) <= tol * Rmax (Rmax (Rabs xv) (Rabs yv)) 1)%R)
          (m_data X) (m_data Y) →
  returns (compare_jacobian ndebug X Y tol msg) true.
Proof.
  intros Hshape Hall.
  assert (E : mat_within tol X Y = true).
  { apply mat_within_true, storage_pairs; [done|]. intros d xv yv Hx Hy.
    apply real_not_too_far. rewrite real_scale.
    by apply (Forall2_lookup_lr _ _ _ _ _ _ Hall Hx Hy). }
  rewrite <- E. by apply compare_jacobian_returns.
Qed.

(** Decides a bound between concrete reals under [Rabs] and [Rmax]. *)
Ltac real_bound :=
  unfold Rmax, Rabs;
  repeat match goal with
         | |- context [Rle_dec ?a ?b] => destruct (Rle_dec a b)
         | |- context [Rcase_abs ?a] => destruct (Rcase_abs a)
         end; lra.

(** The Jacobian of [(x0 + x1, x0 * x1)] at [(1, 2)] on doubles: its rows
    are the two gradients. *)
Lemma jacobian_rows_are_gradients_witness :
  ∃ st, finite_jacobian Double.junk false (Samples.d_objects 0)
          Double.d_sum_and_product Double.d_empty Order4 0.5%float = Ok st ∧
    ∀ r d, r < 2 → d < length (Samples.d_objects 0) →
      gc_store (finite_gradient_call Double.junk Samples.d_objects 0 1
                  (fun v => Double.d_sum_and_product v !!! r) Order4
                  0.5%float) 1 !! d
      = Some (mat_get (js_jac st) r d).
Proof.
  apply (jacobian_rows_are_gradients Double.junk false Samples.d_objects 0 1
           Double.d_sum_and_product Double.d_empty Order4 0.5%float 2).
  - lia.
  - intros v. reflexivity.
Defined.

(** The same call: after [x], the 8 points of the fourth-order gradient. *)
Lemma jacobian_visits_gradient_points_witness :
  ∃ st, finite_jacobian Double.junk false (Samples.d_objects 0)
          Double.d_sum_and_product Double.d_empty Order4 0.5%float = Ok st ∧
        js_evals st
        = Samples.d_objects 0
          :: gc_evals (finite_gradient_call Double.junk Samples.d_objects 0 1
                         Double.d_product Order4 0.5%float).
Proof.
  assert (Hne : 0 ≠ 1) by lia.
  pose proof (jacobian_visits_gradient_points Double.junk false
                Samples.d_objects 0 1 Double.d_sum_and_product
                Double.d_product Double.d_empty Order4 0.5%float 2 Hne
                (fun v => eq_refl)) as Hv.
  cbv zeta in Hv. exact (proj2 Hv).
Defined.

(** A function that returns one component at [x = (1)] and two at
    [x + eps]: the call is aborted. *)
Lemma finite_jacobian_abort_witness :
  finite_jacobian Double.junk false [1%float] Samples.d_growing Double.d_empty
    Order2 0.5%float = Aborted.
Proof.
  apply (proj2 (proj1 (finite_jacobian_abort Double.junk [1%float]
                         Samples.d_growing Double.d_empty Order2 0.5%float))).
  exists 0, 0. split; [simpl; lia|]. split; [simpl; lia|].
  vm_compute. lia.
Defined.

(** With [NDEBUG] the growing function gives a 1-by-1 matrix, and the
    shrinking one an access outside a vector. *)
Lemma finite_jacobian_unchecked_witness :
  (∃ st, finite_jacobian Double.junk true [1%float] Samples.d_growing
           Double.d_empty Order2 0.5%float = Ok st ∧
         m_rows (js_jac st) = 1 ∧ m_cols (js_jac st) = 1) ∧
  finite_jacobian Double.junk true [1%float] Samples.d_shrinking
    Double.d_empty Order2 0.5%float = Undefined.
Proof.
  split.
  - destruct (proj2 (finite_jacobian_unchecked Double.junk [1%float]
                       Samples.d_growing Double.d_empty Order2 0.5%float))
      as (st & Hst & Hr & Hc & _).
    + intros (d & s & _ & _ & Hlt). revert Hlt.
      unfold Samples.d_growing.
      destruct (PrimFloat.ltb _ _); vm_compute; lia.
    + exists st. split; [exact Hst|]. split; [exact Hr|exact Hc].
  - apply (proj2 (proj1 (finite_jacobian_unchecked Double.junk [1%float]
                           Samples.d_shrinking Double.d_empty Order2
                           0.5%float))).
    exists 0, 0. split; [simpl; lia|]. split; [simpl; lia|].
    vm_compute. lia.
Defined.

(** Doubles, tolerance [1/2]: the pair [(2, 5)] is logged, once, by
    either comparator. *)
Lemma comparators_log_witness :
  (compare_gradient false Samples.d_vec_a Samples.d_vec_b 0.5%float "g"%string
   = Ok (vec_within 0.5%float Samples.d_vec_a Samples.d_vec_b,
         vec_log 0.5%float "g"%string Samples.d_vec_a Samples.d_vec_b) ∧
   length (vec_log 0.5%float "g"%string Samples.d_vec_a Samples.d_vec_b) = 1) ∧
  (compare_jacobian false Samples.d_mat_a Samples.d_mat_b 0.5%float "j"%string
   = Ok (mat_within 0.5%float Samples.d_mat_a Samples.d_mat_b,
         mat_log 0.5%float "j"%string Samples.d_mat_a Samples.d_mat_b) ∧
   length (mat_log 0.5%float "j"%string Samples.d_mat_a Samples.d_mat_b) = 1).
Proof.
  pose proof (comparators_log false Samples.d_vec_a Samples.d_vec_b
                Samples.d_mat_a Samples.d_mat_b 0.5%float "g"%string)
    as [Hv _].
  pose proof (comparators_log false Samples.d_vec_a Samples.d_vec_b
                Samples.d_mat_a Samples.d_mat_b 0.5%float "j"%string)
    as [_ Hm].
  split.
  - split; [|vm_compute; reflexivity]. apply Hv. reflexivity.
  - split; [|vm_compute; reflexivity]. apply Hm. repeat split; reflexivity.
Defined.

(** Reals: what tolerance [1/2] accepts, tolerance [1] accepts. *)
Lemma tolerance_monotone_witness :
  returns (compare_gradient false Samples.r_vec_a Samples.r_vec_b 1%R
             "g"%string) true ∧
  returns (compare_jacobian false Samples.r_mat_a Samples.r_mat_b 1%R
             "j"%string) true.
Proof.
  assert (Hle : (1 / 2 <= 1)%R) by lra.
  split.
  - apply (proj1 (tolerance_monotone false Samples.r_vec_a Samples.r_vec_b
                    Samples.r_mat_a Samples.r_mat_b (1 / 2)%R 1%R "g"%string
                    Hle)); [reflexivity|].
    apply real_vectors_accepted. repeat constructor; real_bound.
  - apply (proj2 (tolerance_monotone false Samples.r_vec_a Samples.r_vec_b
                    Samples.r_mat_a Samples.r_mat_b (1 / 2)%R 1%R "j"%string
                    Hle)); [repeat split; reflexivity|].
    apply real_matrices_accepted; [repeat split; reflexivity|].
    repeat constructor; real_bound.
Defined.

(** Reals: the accepted pairs, swapped, are accepted. *)
Lemma comparators_symmetric_witness :
  returns (compare_gradient false Samples.r_vec_b Samples.r_vec_a (1 / 2)%R
             "g"%string) true ∧
  returns (compare_jacobian false Samples.r_mat_b Samples.r_mat_a (1 / 2)%R
             "j"%string) true.
Proof.
  split.
  - apply (proj1 (comparators_symmetric false Samples.r_vec_a Samples.r_vec_b
                    Samples.r_mat_a Samples.r_mat_b (1 / 2)%R "g"%string
                    true)); [reflexivity|].
    apply real_vectors_accepted. repeat constructor; real_bound.
  - apply (proj2 (comparators_symmetric false Samples.r_vec_a Samples.r_vec_b
                    Samples.r_mat_a Samples.r_mat_b (1 / 2)%R "j"%string
                    true)); [repeat split; reflexivity|].
    apply real_matrices_accepted; [repeat split; reflexivity|].
    repeat constructor; real_bound.
Defined.

(** Reals, tolerance [-1]: a vector is not accepted against itself. *)
Lemma negative_tolerance_witness :
  returns (compare_gradient false Samples.r_vec_a Samples.r_vec_a (-1)%R
             "g"%string) false.
Proof.
  apply (negative_tolerance false Samples.r_vec_a Samples.r_vec_a (-1)%R
           "g"%string); [lra|reflexivity].
Defined.

(** Doubles: the 2-by-1 matrices and their storages get one flag. *)
Lemma jacobian_comparator_on_storage_witness :
  ∃ b, returns (compare_jacobian false Samples.d_mat_a Samples.d_mat_b
                  0.5%float "j"%string) b ∧
       returns (compare_gradient false Samples.d_vec_a Samples.d_vec_b
                  0.5%float "j"%string) b.
Proof.
  apply (jacobian_comparator_on_storage false Samples.d_mat_a Samples.d_mat_b
           0.5%float "j"%string).
  repeat split; reflexivity.
Defined.


(** [(x0 + x1, x0 * x1)] at [(1, 2)]: the first column of the Jacobian is
    [(1, 2)]. *)
Lemma jacobian_exact_on_polynomials_witness :
  ∃ st, finite_jacobian Exact.r_zeros false Exact.r_x0 Exact.r_sum_and_product
          Exact.r_empty Order4 3%R = Ok st ∧
        ∀ r, r < 2 → mat_get (js_jac st) r 0 = nth 1 (Samples.r_axis_coeffs r) 0%R.
Proof.
  apply (jacobian_exact_on_polynomials Exact.r_zeros false Exact.r_x0
           Exact.r_sum_and_product Exact.r_empty Order4 3%R 2 0
           Samples.r_axis_coeffs).
  - lra.
  - simpl. lia.
  - intros v. reflexivity.
  - intros r Hr. destruct r as [|[|r]]; [| |lia].
    + split; [simpl; lia|]. intros h.
      change ((1 + h + 2)%R = (3 + h * (1 + h * 0))%R). lra.
    + split; [simpl; lia|]. intros h.
      change (((1 + h) * 2)%R = (2 + h * (2 + h * 0))%R). lra.
Defined.

(** [x0 * x1] at [(1, 2)] is [2 + 2 s + t + s t] in the displacements:
    the mixed entry is 1 and the first diagonal entry 0, with step 3. *)
Lemma hessian_exact_on_quadratics_witness :
  mat_get (hs_hess (finite_hessian Exact.r_zeros Exact.r_x0 Exact.r_product
                      Exact.r_empty 3%R)) 0 1 = 1%R ∧
  mat_get (hs_hess (finite_hessian Exact.r_zeros Exact.r_x0 Exact.r_product
                      Exact.r_empty 3%R)) 0 0 = (2 * 0)%R.
Proof.
  assert (Heps : 3%R ≠ 0%R) by lra.
  assert (H0 : 0 < length Exact.r_x0) by (simpl; lia).
  assert (H1 : 1 < length Exact.r_x0) by (simpl; lia).
  split.
  - apply (proj1 (hessian_exact_on_quadratics Exact.r_zeros Exact.r_x0
                    Exact.r_product Exact.r_empty 3%R 0 1
                    2%R 2%R 1%R 0%R 1%R 0%R 0%R 0%R 0%R Heps H0 H1)).
    intros s t.
    change (((1 + s) * (2 + t))%R
            = (2 + 2 * s + 1 * t + 0 * s * s + 1 * s * t + 0 * t * t)%R).
    lra.
  - apply (proj2 (hessian_exact_on_quadratics Exact.r_zeros Exact.r_x0
                    Exact.r_product Exact.r_empty 3%R 0 0
                    0%R 0%R 0%R 0%R 0%R 0%R 2%R 2%R 0%R Heps H0 H0)).
    intros s.
    change (((1 + s) * 2)%R = (2 + 2 * s + 0 * s * s)%R). lra.
Defined.

(** A matrix of reals, and a matrix holding NaN and an infinity, are
    accepted against themselves. *)
Lemma matrix_comparators_reflexive_witness :
  returns (compare_jacobian false Samples.r_mat_b Samples.r_mat_b 0%R
             "j"%string) true ∧
  returns (compare_hessian false Samples.d_mat_nan Samples.d_mat_nan 0.5%float
             "h"%string) true.
Proof.
  split.
  - apply (proj1 matrix_comparators_reflexive false Samples.r_mat_b 0%R
             "j"%string); [reflexivity|lra].
  - apply (proj2 matrix_comparators_reflexive false Samples.d_mat_nan
             0.5%float "h"%string); reflexivity.
Defined.

(** Small values are compared absolutely, large ones relatively. *)
Lemma tolerance_absolute_then_relative_witness :
  (returns (compare_gradient false Samples.r_small_a Samples.r_small_b
              (1 / 4)%R "g"%string) true ↔
   ∀ d xv yv, Samples.r_small_a !! d = Some xv →
     Samples.r_small_b !! d = Some yv → (Rabs (xv - yv) <= 1 / 4)%R) ∧
  (returns (compare_gradient false Samples.r_large_a Samples.r_large_b
              (1 / 4)%R "g"%string) true ↔
   ∀ d xv yv, Samples.r_large_a !! d = Some xv →
     Samples.r_large_b !! d = Some yv →
     (Rabs (xv - yv) <= 1 / 4 * Rmax (Rabs xv) (Rabs yv))%R).
Proof.
  split.
  - apply (proj1 (tolerance_absolute_then_relative false Samples.r_small_a
                    Samples.r_small_b (1 / 4)%R "g"%string eq_refl)).
    intros v Hv.
    repeat (apply elem_of_cons in Hv as [->|Hv]); [real_bound ..|].
    by apply elem_of_nil in Hv.
  - apply (proj2 (tolerance_absolute_then_relative false Samples.r_large_a
                    Samples.r_large_b (1 / 4)%R "g"%string eq_refl)).
    intros [|[|d]] xv yv Hx Hy; [| |discriminate Hx].
    + injection Hx as <-. left. real_bound.
    + injection Hx as <-. left. real_bound.
Defined.

(** What the build with assertions returns on the samples, the build
    with [NDEBUG] returns. *)
Lemma assertions_change_nothing_witness :
  (∃ st, finite_jacobian Double.junk false Double.d_x0 Double.d_sum_and_product
           Double.d_empty Order2 0.5%float = Ok st ∧
         finite_jacobian Double.junk true Double.d_x0 Double.d_sum_and_product
           Double.d_empty Order2 0.5%float = Ok st) ∧
  (∃ r, compare_gradient false Samples.d_vec_a Samples.d_vec_b 0.5%float
          "g"%string = Ok r ∧
        compare_gradient true Samples.d_vec_a Samples.d_vec_b 0.5%float
          "g"%string = Ok r) ∧
  (∃ r, compare_jacobian false Samples.d_mat_a Samples.d_mat_b 0.5%float
          "g"%string = Ok r ∧
        compare_hessian true Samples.d_mat_a Samples.d_mat_b 0.5%float
          "g"%string = Ok r).
Proof.
  pose proof (assertions_change_nothing Double.junk Samples.d_vec_a
                Samples.d_vec_b Samples.d_mat_a Samples.d_mat_b
                Double.d_sum_and_product Double.d_empty Order2 0.5%float
                0.5%float "g"%string) as (Hj & Hg & Hm).
  pose proof (assertions_change_nothing Double.junk Double.d_x0
                Samples.d_vec_b Samples.d_mat_a Samples.d_mat_b
                Double.d_sum_and_product Double.d_empty Order2 0.5%float
                0.5%float "g"%string) as (Hj' & _ & _).
  split; [|split].
  - eexists. split; [vm_compute; reflexivity|].
    apply Hj'. vm_compute. reflexivity.
  - eexists. split; [vm_compute; reflexivity|].
    apply Hg. vm_compute. reflexivity.
  - eexists. split; [vm_compute; reflexivity|].
    apply Hm; [reflexivity|reflexivity|]. vm_compute. reflexivity.
Defined.

(** ** NaN in the comparators *)

Section DoubleNaN.
Import Double.
Import SpecFloat.

(** A NaN tolerance makes the bound NaN, and a NaN [x] or [y] makes the
    difference NaN: the test [abs_diff > test_eps * scale] is then false. *)
Lemma double_nan_operand (tol xv yv : float) :
  PrimFloat.is_nan tol = true ∨ PrimFloat.is_nan xv = true ∨
  PrimFloat.is_nan yv = true →
  too_far tol xv yv = false.
Proof.
  unfold too_far, gtb.
  change (@ltb float double_arith) with PrimFloat.ltb.
  change (@abs float double_arith) with PrimFloat.abs.
  change (@sub float double_arith) with PrimFloat.sub.
  change (@mul float double_arith) with PrimFloat.mul.
  rewrite FloatAxioms.ltb_spec, FloatAxioms.abs_spec, FloatAxioms.sub_spec,
    FloatAxioms.mul_spec.
  unfold FloatAxioms.SF64sub, FloatAxioms.SF64mul.
  intros [Hn%is_nan_spec|[Hn%is_nan_spec|Hn%is_nan_spec]]; rewrite Hn.
  - done.
  - apply SFltb_nan_r.
  - replace (SFsub _ _ (FloatOps.Prim2SF xv) S754_nan) with S754_nan
      by (by destruct (FloatOps.Prim2SF xv) as [[]|[]| |[] ? ?]).
    apply SFltb_nan_r.
Qed.
End DoubleNaN.

(** X19: In double arithmetic NaN is accepted: with a NaN tolerance the
    comparators return true on any two inputs of one shape, and
    compare_gradient returns true whenever, at every index, [x] or [y]
    holds a NaN. *)
Theorem nan_is_accepted (ndebug : bool) (x y : list float)
    (X Y : Matrix float) (tol : float) (msg : string) :
  (PrimFloat.is_nan tol = true →
   (length x = length y → returns (compare_gradient ndebug x y tol msg) true) ∧
   (same_shape X Y →
    returns (compare_jacobian ndebug X Y tol msg) true ∧
    returns (compare_hessian ndebug X Y tol msg) true)) ∧
  (length x = length y →
   (∀ d xv yv, x !! d = Some xv → y !! d = Some yv →
      PrimFloat.is_nan xv = true ∨ PrimFloat.is_nan yv = true) →
   returns (compare_gradient ndebug x y tol msg) true).
Proof.
  split.
  - intros Htol. split.
    + intros Hlen.
      assert (E : vec_within tol x y = true).
      { apply vec_within_true; [done|]. intros d xv yv _ _.
        apply double_nan_operand. by left. }
      rewrite <- E. by apply compare_gradient_returns.
    + intros Hshape.
      assert (E : mat_within tol X Y = true).
      { apply mat_within_true. intros r c _ _.
        apply double_nan_operand. by left. }
      unfold compare_hessian. rewrite <- E.
      split; by apply compare_jacobian_returns.
  - intros Hlen Hnan.
    assert (E : vec_within tol x y = true).
    { apply vec_within_true; [done|]. intros d xv yv Hx Hy.
      apply double_nan_operand. right. by apply (Hnan d). }
    rewrite <- E. by apply compare_gradient_returns.
Qed.

(** A NaN tolerance accepts [(1, 2)] against [(1, 5)]; a vector of NaN is
    accepted against [(1, 5)] with tolerance [1/2]. *)
Lemma nan_is_accepted_witness :
  returns (compare_gradient false Samples.d_vec_a Samples.d_vec_b
             PrimFloat.nan "g"%string) true ∧
  returns (compare_gradient false [PrimFloat.nan; PrimFloat.nan]
             Samples.d_vec_b 0.5%float "g"%string) true.
Proof.
  split.
  - apply (proj1 (proj1 (nan_is_accepted false Samples.d_vec_a Samples.d_vec_b
                           Samples.d_mat_a Samples.d_mat_b PrimFloat.nan
                           "g"%string) eq_refl)).
    reflexivity.
  - apply (proj2 (nan_is_accepted false [PrimFloat.nan; PrimFloat.nan]
                    Samples.d_vec_b Samples.d_mat_a Samples.d_mat_b 0.5%float
                    "g"%string) eq_refl).
    intros [|[|d]] xv yv Hx Hy; [| |discriminate Hx];
      injection Hx as <-; left; reflexivity.
Defined.
